(** * Subcommand resolution and argument-arity validation of package [command]

    A shallow embedding of [command.go]: the argument specification
    ([cmdArg], [cmdArgFromString], [cmdArgs.Validate]) and the resolution
    engine [TryParse] over the package-level state.  The host [flag]
    package is not part of the package; it enters as the interface
    [FlagPackage], and a small instance of it following the Go standard
    library is used to run the definitions on concrete command lines. *)

From Stdlib Require Import Ascii String.
From stdpp Require Import base option list strings gmap pretty.

Local Open Scope string_scope.
Local Open Scope list_scope.

(** ** Command arguments *)

(** [cmdArgType]: the three [iota] constants. *)
Inductive cmdArgType : Type :=
  | atMandatory
  | atOptional
  | atEllipse.

Global Instance cmdArgType_eq_dec : EqDecision cmdArgType.
Proof. solve_decision. Defined.

(** [type cmdArg struct { name string; argType cmdArgType }] *)
Record cmdArg : Type := mkCmdArg {
  cmdArg_name : string;
  cmdArg_argType : cmdArgType
}.

Global Instance cmdArg_eq_dec : EqDecision cmdArg.
Proof. solve_decision. Defined.

(** [type cmdArgs []cmdArg] *)
Abbreviation cmdArgs := (list cmdArg).

(** [cmdArgFromString].  Go strings are byte sequences and [argPattern[i]]
    is a byte index that panics out of range; [None] is that panic, which
    only the empty pattern reaches. *)
Definition cmdArgFromString (argPattern : string) : option cmdArg :=
  if String.eqb argPattern "..." then
    Some (mkCmdArg argPattern atEllipse)
  else
    match String.get 0 argPattern,
          String.get (String.length argPattern - 1) argPattern with
    | Some first, Some last =>
        if Ascii.eqb first "["%char && Ascii.eqb last "]"%char then
          Some (mkCmdArg argPattern atOptional)
        else
          Some (mkCmdArg ("<" +:+ argPattern +:+ ">") atMandatory)
    | _, _ => None
    end.

(** The body of the [for _, a := range ca] loop of [Validate], with the
    local [args] threaded through: [inl msg] is the early
    [return fmt.Errorf(msg)], [inr rest] is [args] when the loop ends. *)
Fixpoint Validate_loop (ca : cmdArgs) (args : list string)
  : string + list string :=
  match ca with
  | [] => inr args
  | a :: ca' =>
      match cmdArg_argType a with
      | atMandatory =>
          if decide (length args = 0) then inl "too few arguments"
          else Validate_loop ca' (drop 1 args)
      | atOptional =>
          if decide (0 < length args) then Validate_loop ca' (drop 1 args)
          else Validate_loop ca' args
      | atEllipse =>
          Validate_loop ca' (take 0 args)
      end
  end.

(** [func (ca cmdArgs) Validate(args []string) error]; [None] is [nil],
    [Some msg] the error built from [msg]. *)
Definition Validate (ca : cmdArgs) (args : list string) : option string :=
  match Validate_loop ca args with
  | inl msg => Some msg
  | inr rest =>
      if decide (length rest ≠ 0) then Some "too many arguments" else None
  end.

(** ** The first and the last character of a pattern *)

Definition first_char (s : string) : option ascii :=
  match s with
  | EmptyString => None
  | String c _ => Some c
  end.

Fixpoint last_char (s : string) : option ascii :=
  match s with
  | EmptyString => None
  | String c EmptyString => Some c
  | String _ s' => last_char s'
  end.

(** ** The walk of the slots, as the specification words it *)

Inductive ValidationOutcome : Type :=
  | ValidOK
  | TooFew
  | TooMany.

(** The error value that stands for each outcome. *)
Definition outcome_error (o : ValidationOutcome) : option string :=
  match o with
  | ValidOK => None
  | TooFew => Some "too few arguments"
  | TooMany => Some "too many arguments"
  end.

(** [Walk slots tokens o]: matching [slots] left to right against the
    remaining [tokens] ends in [o].  One rule per sentence of the
    specification: a Mandatory slot takes exactly one token and fails with
    [TooFew] when none is left; an Optional slot takes one token only if
    one is left; a Variadic slot takes all that is left; tokens left at
    the end are [TooMany]. *)
Inductive Walk : cmdArgs → list string → ValidationOutcome → Prop :=
  | Walk_end_ok :
      Walk [] [] ValidOK
  | Walk_end_left t ts :
      Walk [] (t :: ts) TooMany
  | Walk_mandatory_none a slots :
      cmdArg_argType a = atMandatory →
      Walk (a :: slots) [] TooFew
  | Walk_mandatory_one a slots t ts o :
      cmdArg_argType a = atMandatory →
      Walk slots ts o →
      Walk (a :: slots) (t :: ts) o
  | Walk_optional_one a slots t ts o :
      cmdArg_argType a = atOptional →
      Walk slots ts o →
      Walk (a :: slots) (t :: ts) o
  | Walk_optional_none a slots o :
      cmdArg_argType a = atOptional →
      Walk slots [] o →
      Walk (a :: slots) [] o
  | Walk_variadic a slots ts o :
      cmdArg_argType a = atEllipse →
      Walk slots [] o →
      Walk (a :: slots) ts o.

(** The slot at index [i] of a run of slots without a Variadic one is
    offered the token at index [i], if there is one: every slot before
    it has taken a token as long as tokens were left. *)
Definition mandatory_served (pre : cmdArgs) (tokens : list string) : Prop :=
  ∀ i a, pre !! i = Some a → cmdArg_argType a = atMandatory → i < length tokens.

(** ** The host flag package *)

(** What [TryParse] uses of Go's [flag] package.  A [FlagSet] value is the
    flag set at one moment; operations that mutate it return the new one.
    An operation that does not return to its caller (the [os.Exit] of a
    flag set created with [flag.ExitOnError], or a panic) yields [None]. *)
Class FlagPackage : Type := {
  FlagSet : Type;
  (** [flag.NewFlagSet(name, flag.ExitOnError)] *)
  NewFlagSet : string → FlagSet;
  (** [fs.Bool(name, false, usage)]; panics when [name] is already declared.
      The pointer it returns is read back with [fs_BoolValue]. *)
  fs_Bool : FlagSet → string → option FlagSet;
  (** [fs.Parse(arguments)]; [TryParse] drops the error it returns. *)
  fs_Parse : FlagSet → list string → option FlagSet;
  (** [fs.Args()]: the tokens left after the flags. *)
  fs_Args : FlagSet → list string;
  (** The names [fs.Visit] hands to its callback: the flags that were set. *)
  fs_Visit : FlagSet → list string;
  (** The bool stored for the flag [name]. *)
  fs_BoolValue : FlagSet → string → bool
}.

Section Resolution.

Context `{FP : FlagPackage}.

(** [type Cmd interface]: [Flags] takes a flag set and returns one; [Run]
    takes the positional arguments.  [TryParse] only calls [Flags]. *)
Record Cmd : Type := mkCmd {
  Flags : FlagSet → FlagSet
}.

(** [type cmdCont struct].  [cmdCont_args] is [None] for the [nil] slice
    and [Some l] for a slice made by [Arguments], empty or not. *)
Record cmdCont : Type := mkCmdCont {
  cmdCont_name : string;
  cmdCont_desc : string;
  cmdCont_command : Cmd;
  cmdCont_requiredFlags : list string;
  cmdCont_args : option cmdArgs
}.

(** [type preArgDef struct { name, desc, val string }] *)
Record preArgDef : Type := mkPreArgDef {
  preArgDef_name : string;
  preArgDef_desc : string;
  preArgDef_val : string
}.

(** [type TryParseReason int] and its four constants. *)
Inductive TryParseReason : Type :=
  | TryParseNoPreArg
  | TryParseNoCommand
  | TryParseInvalidCommand
  | TryParseArgError.

(** [type TryParseError struct { Reason; Command; Message }] *)
Record TryParseError : Type := mkTryParseError {
  Reason : TryParseReason;
  Command : string;
  Message : string
}.

(** The package-level variables, and [flag.CommandLine] of the flag
    package.  [preargdefs] holds pointers in Go; the list of structs stands
    for the pointed-to values, which is where [TryParse] writes.
    [matchingCmd] points to a descriptor of [cmds]; [TryParse] never
    writes through it, so the descriptor itself is stored.  [flagHelp] is
    [None] for the nil pointer and [Some b] when it points to a [b]. *)
Record State : Type := mkState {
  CommandLine : FlagSet;
  cmds : gmap string cmdCont;
  preargdefs : list preArgDef;
  matchingCmd : option cmdCont;
  args : list string;
  flagHelp : option bool;
  reserveHFlag : bool;
  helpPreargOverride : bool
}.

Definition set_CommandLine (st : State) (cl : FlagSet) : State :=
  mkState cl (cmds st) (preargdefs st) (matchingCmd st) (args st)
          (flagHelp st) (reserveHFlag st) (helpPreargOverride st).

Definition set_preargdefs (st : State) (ds : list preArgDef) : State :=
  mkState (CommandLine st) (cmds st) ds (matchingCmd st) (args st)
          (flagHelp st) (reserveHFlag st) (helpPreargOverride st).

Definition set_flagHelp (st : State) (p : option bool) : State :=
  mkState (CommandLine st) (cmds st) (preargdefs st) (matchingCmd st) (args st)
          p (reserveHFlag st) (helpPreargOverride st).

Definition set_args (st : State) (a : list string) : State :=
  mkState (CommandLine st) (cmds st) (preargdefs st) (matchingCmd st) a
          (flagHelp st) (reserveHFlag st) (helpPreargOverride st).

Definition set_matchingCmd (st : State) (c : option cmdCont) : State :=
  mkState (CommandLine st) (cmds st) (preargdefs st) c (args st)
          (flagHelp st) (reserveHFlag st) (helpPreargOverride st).

(** [flag.Arg(i)]: the [i]-th remaining token, the empty string when
    there is none. *)
Definition Arg (residue : list string) (i : nat) : string :=
  default EmptyString (residue !! i).

(** [preargdef.val = v] *)
Definition set_val (d : preArgDef) (v : string) : preArgDef :=
  mkPreArgDef (preArgDef_name d) (preArgDef_desc d) v.

(** [for i, preargdef := range preargdefs { preargdef.val = flag.Arg(i) }] *)
Definition write_preargs (ds : list preArgDef) (residue : list string)
  : list preArgDef :=
  imap (λ i d, set_val d (Arg residue i)) ds.

(** The value of [consumePreargs]. *)
Definition consumePreargs (st : State) (residue : list string) : bool :=
  (helpPreargOverride st
     && negb (bool_decide (0 < length residue)
              && bool_decide (Arg residue 0 = "help")))
  || negb (helpPreargOverride st).

(** [commandNameArgN] and [expectedArgCount] as they stand after the
    [if consumePreargs] block: initialised to 0 and 1, and reassigned when
    the block is entered. *)
Definition commandNameArgN (st : State) (residue : list string) : nat :=
  if consumePreargs st residue then length (preargdefs st) else 0.

Definition expectedArgCount (st : State) (residue : list string) : nat :=
  if consumePreargs st residue then commandNameArgN st residue + 1 else 1.

(** The [flagMap] of the required-flag check: every required flag is
    entered, then every flag visited is deleted. *)
Definition flagMap (required visited : list string) : gmap string bool :=
  foldl (λ m f, delete f m) (foldl (λ m f, <[f:=true]> m) ∅ required) visited.

(** The state after the [if consumePreargs] block, once the count of
    tokens has been found sufficient: the values are written when the
    block is entered. *)
Definition after_preargs (st : State) (residue : list string) : State :=
  if consumePreargs st residue
  then set_preargdefs st (write_preargs (preargdefs st) residue)
  else st.

(** [name := flag.Arg(commandNameArgN)] *)
Definition command_token (st : State) (residue : list string) : string :=
  Arg residue (commandNameArgN st residue).

(** The flag set [fs] of the matched command after [fs.Parse(tokens)]: the
    handler declares its flags in a new flag set, [h] is added when it is
    reserved, and the tokens after the command name are parsed. *)
Definition command_flag_set (st : State) (name : string) (cont : cmdCont)
    (tokens : list string) : option FlagSet :=
  fs0 ← (if reserveHFlag st
         then fs_Bool (Flags (cmdCont_command cont) (NewFlagSet name)) "h"
         else Some (Flags (cmdCont_command cont) (NewFlagSet name)));
  fs_Parse fs0 tokens.

(** The assignments to [flagHelp], [args] and [matchingCmd].  [flagHelp]
    is assigned before the parse and read after it, so it holds what the
    parse stored for [h]. *)
Definition recorded (st : State) (fs : FlagSet) (cont : cmdCont) : State :=
  set_matchingCmd
    (set_args
       (if reserveHFlag st
        then set_flagHelp st (Some (fs_BoolValue fs "h"))
        else st)
       (fs_Args fs))
    (Some cont).

(** What the matched branch returns after the assignments: the error for
    a required flag that was not visited, else the error of [Validate]
    when the descriptor has an argument specification, else nil. *)
Definition check_command (name : string) (cont : cmdCont)
    (visited : list string) (args : list string) : option TryParseError :=
  if decide (0 < size (flagMap (cmdCont_requiredFlags cont) visited)) then
    Some (mkTryParseError TryParseInvalidCommand name
            (name +:+ ": missing required flags"))
  else
    match cmdCont_args cont with
    | Some ca =>
        match Validate ca args with
        | Some msg =>
            Some (mkTryParseError TryParseArgError name (name +:+ ": " +:+ msg))
        | None => None
        end
    | None => None
    end.

(** The branch of [TryParse] taken when [cmds[name]] is found; [tokens]
    is [flag.Args()[commandNameArgN + 1:]]. *)
Definition TryParse_matched (st : State) (tokens : list string)
    (name : string) (cont : cmdCont) : option (State * option TryParseError) :=
  fs ← command_flag_set st name cont tokens;
  let st' := recorded st fs cont in
  Some (st', check_command name cont (fs_Visit fs) (args st')).

(** [TryParse] from the statement after [flag.Parse()] on; [residue] is
    [flag.Args()]. *)
Definition TryParse_residue (st : State) (residue : list string)
  : option (State * option TryParseError) :=
  if decide (size (cmds st) < 1) then Some (st, None)
  else if consumePreargs st residue
          && bool_decide (length residue < expectedArgCount st residue - 1) then
    Some (st, Some (mkTryParseError TryParseNoPreArg EmptyString
                      ("expected " +:+ pretty (expectedArgCount st residue - 1)
                       +:+ " argument(s) before command")))
  else if decide (length residue < expectedArgCount st residue) then
    Some (after_preargs st residue,
          Some (mkTryParseError TryParseNoCommand EmptyString "missing command"))
  else
    let name := command_token st residue in
    match cmds st !! name with
    | Some cont =>
        TryParse_matched (after_preargs st residue)
                         (drop (commandNameArgN st residue + 1) residue) name cont
    | None =>
        Some (after_preargs st residue,
              Some (mkTryParseError TryParseInvalidCommand EmptyString
                      ("invalid command: " +:+ name)))
    end.

(** [func TryParse() error] on the command line [osArgs] ([os.Args[1:]]).
    [None]: the process ended inside the flag package.  [Some (st', r)]:
    the call returned [r] ([None] for [nil]) and left the state [st']. *)
Definition TryParse (st : State) (osArgs : list string)
  : option (State * option TryParseError) :=
  cl ← fs_Parse (CommandLine st) osArgs;
  TryParse_residue (set_CommandLine st cl) (fs_Args cl).

(** The part of the state that [Run] reads: the matched descriptor, the
    positional arguments and the help flag. *)
Definition resolution_state (st : State)
  : option cmdCont * list string * option bool :=
  (matchingCmd st, args st, flagHelp st).

End Resolution.

(** ** An instance of the flag package *)

(** The flag sets of Go's standard [flag] package, restricted to bool and
    string flags and to the [ExitOnError] policy, which [TryParse] asks for
    and which [flag.CommandLine] has by default: every parse error ends the
    process. *)
Module GoFlag.

(** A declared flag: its kind and the text of its current value. *)
Record Flag : Type := mkFlag {
  isBoolFlag : bool;
  value : string
}.

(** [formal] maps the declared names to their flags, [actual] lists the
    names that were set, [fargs] are the tokens left after the flags. *)
Record FlagSet : Type := mkFlagSet {
  formal : gmap string Flag;
  actual : list string;
  fargs : list string
}.

Definition NewFlagSet (name : string) : FlagSet := mkFlagSet ∅ [] [].

(** Declaring a flag; a second declaration of a name panics. *)
Definition Var (f : FlagSet) (name : string) (fl : Flag) : option FlagSet :=
  match formal f !! name with
  | Some _ => None
  | None => Some (mkFlagSet (<[name := fl]> (formal f)) (actual f) (fargs f))
  end.

Definition Bool (f : FlagSet) (name : string) : option FlagSet :=
  Var f name (mkFlag true "false").

(** Declarations made by a command's [Flags] method; a name that is
    already declared is left as it is. *)
Definition declare (name : string) (fl : Flag) (f : FlagSet) : FlagSet :=
  default f (Var f name fl).

(** [strconv.ParseBool] *)
Definition ParseBool (s : string) : option bool :=
  if bool_decide (s ∈ ["1"; "t"; "T"; "TRUE"; "true"; "True"]) then Some true
  else if bool_decide (s ∈ ["0"; "f"; "F"; "FALSE"; "false"; "False"]) then Some false
  else None.

(** The text before the first [=] and, if there is one, the text after it. *)
Fixpoint split_equals (s : string) : string * option string :=
  match s with
  | EmptyString => (EmptyString, None)
  | String c s' =>
      if Ascii.eqb c "="%char then (EmptyString, Some s')
      else let '(n, v) := split_equals s' in (String c n, v)
  end.

(** How [parseOne] reads the next token. *)
Inductive token_class : Type :=
  | NotAFlag
  | Terminator
  | BadSyntax
  | FlagToken (name : string) (val : option string).

Definition classify (s : string) : token_class :=
  match s with
  | String "-" (String c rest) =>
      if Ascii.eqb c "-"%char && bool_decide (rest = EmptyString) then Terminator
      else
        match (if Ascii.eqb c "-"%char then rest else String c rest) with
        | EmptyString => BadSyntax
        | String n0 name' =>
            if Ascii.eqb n0 "-"%char || Ascii.eqb n0 "="%char then BadSyntax
            else let '(n, v) := split_equals name' in FlagToken (String n0 n) v
        end
  | _ => NotAFlag
  end.

(** Recording that [name] was set. *)
Definition mark (name : string) (actual : list string) : list string :=
  if bool_decide (name ∈ actual) then actual else actual ++ [name].

(** The loop of [Parse] over [parseOne]. *)
Fixpoint parse_args (formal : gmap string Flag) (actual : list string)
    (arguments : list string) : option FlagSet :=
  match arguments with
  | [] => Some (mkFlagSet formal actual [])
  | s :: rest =>
      match classify s with
      | NotAFlag => Some (mkFlagSet formal actual (s :: rest))
      | Terminator => Some (mkFlagSet formal actual rest)
      | BadSyntax => None
      | FlagToken name v =>
          match formal !! name with
          | None => None
          | Some fl =>
              if isBoolFlag fl then
                match ParseBool (default "true" v) with
                | Some b =>
                    parse_args
                      (<[name := mkFlag true (if b then "true" else "false")]> formal)
                      (mark name actual) rest
                | None => None
                end
              else
                match v with
                | Some x =>
                    parse_args (<[name := mkFlag false x]> formal) (mark name actual) rest
                | None =>
                    match rest with
                    | x :: rest' =>
                        parse_args (<[name := mkFlag false x]> formal)
                                   (mark name actual) rest'
                    | [] => None
                    end
                end
          end
      end
  end.

Definition Parse (f : FlagSet) (arguments : list string) : option FlagSet :=
  parse_args (formal f) (actual f) arguments.

Definition BoolValue (f : FlagSet) (name : string) : bool :=
  match formal f !! name with
  | Some fl => bool_decide (value fl = "true")
  | None => false
  end.

End GoFlag.

(** [fs.Visit] goes through the set flags in lexical order; the order
    they were set in is handed out here, which [TryParse] cannot tell
    apart since it only deletes each name from a map. *)
Global Instance GoFlagPackage : FlagPackage := {|
  FlagSet := GoFlag.FlagSet;
  NewFlagSet := GoFlag.NewFlagSet;
  fs_Bool := GoFlag.Bool;
  fs_Parse := GoFlag.Parse;
  fs_Args := GoFlag.fargs;
  fs_Visit := GoFlag.actual;
  fs_BoolValue := GoFlag.BoolValue
|}.

(** ** Registration *)

Section Registration.

Context `{FP : FlagPackage}.

(** The package variables as they are initialised, with the process's
    [flag.CommandLine]. *)
Definition initial_state (commandLine : FlagSet) : State :=
  mkState commandLine ∅ [] None [] None true false.

(** [On]: the new descriptor replaces any other of that name. *)
Definition On (name description : string) (command : Cmd) (st : State) : State :=
  mkState (CommandLine st)
          (<[name := mkCmdCont name description command [] None]> (cmds st))
          (preargdefs st) (matchingCmd st) (args st)
          (flagHelp st) (reserveHFlag st) (helpPreargOverride st).

(** [CmdBuilder.Arguments] on the descriptor the builder holds; [None]
    when [cmdArgFromString] panics on one of the patterns. *)
Definition Arguments (cont : cmdCont) (patterns : list string) : option cmdCont :=
  slots ← mapM cmdArgFromString patterns;
  Some (mkCmdCont (cmdCont_name cont) (cmdCont_desc cont) (cmdCont_command cont)
                  (cmdCont_requiredFlags cont)
                  (Some (default [] (cmdCont_args cont) ++ slots))).

(** [cmdUsageCmd.Flags] returns the flag set it is given. *)
Definition cmdUsageCmd : Cmd := mkCmd (λ fs, fs).

(** [OnHelpShowUsage] *)
Definition OnHelpShowUsage (st : State) : State :=
  On "help" "Displays usage string of commands" cmdUsageCmd
     (mkState (CommandLine st) (cmds st) (preargdefs st) (matchingCmd st)
              (args st) (flagHelp st) false (helpPreargOverride st)).

(** [OnHelpIgnorePreargs] *)
Definition OnHelpIgnorePreargs (st : State) : State :=
  mkState (CommandLine st) (cmds st) (preargdefs st) (matchingCmd st)
          (args st) (flagHelp st) (reserveHFlag st) true.

(** [PreArg]: the declaration is appended with an empty value. *)
Definition PreArg (name description : string) (st : State) : State :=
  set_preargdefs st (preargdefs st ++ [mkPreArgDef name description EmptyString]).

(** The outcome of a call, without the state it leaves. *)
Definition returned_reason (r : option (State * option TryParseError))
  : option (option TryParseReason) :=
  match r with
  | Some (_, e) => Some (Reason <$> e)
  | None => None
  end.

End Registration.

(** ** Programs to run the definitions on *)

Module Examples.

(** A handler that declares one bool flag. *)
Definition boolCmd (flagName : string) : Cmd :=
  mkCmd (GoFlag.declare flagName (GoFlag.mkFlag true "false")).

Definition start : State := initial_state (GoFlag.NewFlagSet "prog").

(** [deploy] requires the flag [force] and takes one argument [env]. *)
Definition deploy : cmdCont :=
  mkCmdCont "deploy" "Deploys" (boolCmd "force") ["force"]
            (Some [mkCmdArg "<env>" atMandatory]).

Definition deploy_program : State :=
  mkState (CommandLine start) {["deploy" := deploy]} [] None [] None true false.

(** Two pre-arguments and a command [status]. *)
Definition status_program : State :=
  On "status" "Shows the status" cmdUsageCmd
     (PreArg "repo" "The repository" (PreArg "org" "The organisation" start)).


(** The same with the help command registered. *)
Definition override_help_program : State :=
  On "command1" "First command" (boolCmd "flag1")
     (PreArg "pa" "this is a prearg" (OnHelpShowUsage (OnHelpIgnorePreargs start))).

(** [push] with the patterns [branch] and [...]. *)
Definition push : cmdCont :=
  default (mkCmdCont "push" "Pushes" cmdUsageCmd [] None)
          (Arguments (mkCmdCont "push" "Pushes" cmdUsageCmd [] None) ["branch"; "..."]).

Definition push_program : State :=
  mkState (CommandLine start) {["push" := push]} [] None [] None true false.

(** The flag set a parse leaves; the examples use it where the parse
    returns. *)
Definition parsed (f : GoFlag.FlagSet) (arguments : list string) : GoFlag.FlagSet :=
  default f (GoFlag.Parse f arguments).

(** [flag.CommandLine] after [flag.Parse()] on [osArgs]. *)
Definition global_parsed (st : State) (osArgs : list string) : GoFlag.FlagSet :=
  parsed (CommandLine st) osArgs.

(** The flag set of the matched command after the parse of [tokens]. *)
Definition command_parsed (st : State) (name : string) (cont : cmdCont)
    (tokens : list string) : GoFlag.FlagSet :=
  default (GoFlag.NewFlagSet name) (command_flag_set st name cont tokens).

(** The descriptor [On] stores for [status] and the one [OnHelpShowUsage]
    stores for [help]. *)
Definition status : cmdCont :=
  mkCmdCont "status" "Shows the status" cmdUsageCmd [] None.

Definition help : cmdCont :=
  mkCmdCont "help" "Displays usage string of commands" cmdUsageCmd [] None.

(** The state a call leaves when [name] is matched as [cont] and
    [tokens] follow it. *)
Definition resolved (st : State) (osArgs : list string) (name : string)
    (cont : cmdCont) (tokens : list string) : State :=
  recorded
    (after_preargs (set_CommandLine st (global_parsed st osArgs))
                   (fs_Args (global_parsed st osArgs)))
    (command_parsed st name cont tokens) cont.

End Examples.

(** ** Dispatch and usage *)

Section Dispatch.

Context `{FP : FlagPackage}.

(** [clearPreArgs] *)
Definition clearPreArgs (st : State) : State := set_preargdefs st [].

(** What the package hands control to: the program usage ([Usage]), the
    usage of one command ([subcommandUsage]), the report of an unknown
    command name followed by [os.Exit(1)], or the [Run] method of a
    handler with its arguments.  The text written to standard error is
    left out. *)
Inductive Action : Type :=
  | ProgramUsage
  | CommandUsage (cont : cmdCont)
  | Unrecognised (cmdName : string)
  | RunHandler (cont : cmdCont) (arguments : list string).

(** [subcommandUsageByName] *)
Definition subcommandUsageByName (st : State) (cmdName : string) : Action :=
  match cmds st !! cmdName with
  | Some cont => CommandUsage cont
  | None => Unrecognised cmdName
  end.

(** [TryParseError.Error] *)
Definition TryParseError_Error (tp : TryParseError) : string := Message tp.

(** [TryParseError.Usage], after the line that prints the message. *)
Definition TryParseError_Usage (st : State) (tp : TryParseError) : Action :=
  if decide (Command tp ≠ EmptyString)
  then subcommandUsageByName st (Command tp)
  else ProgramUsage.

(** [Run]: [None] when nothing is matched and the call silently returns. *)
Definition Run (st : State) : option Action :=
  match matchingCmd st with
  | Some cont =>
      match flagHelp st with
      | Some true => Some (CommandUsage cont)
      | _ => Some (RunHandler cont (args st))
      end
  | None => None
  end.

(** [cmdUsageCmd.Run], for the function [subcommandUsageByName] that
    [OnHelpShowUsage] wraps. *)
Definition cmdUsageCmd_Run (st : State) (arguments : list string) : Action :=
  match arguments with
  | [] => ProgramUsage
  | [a] => subcommandUsageByName st a
  | _ => subcommandUsageByName st "help"
  end.

(** [Parse]: [None] when the process ended inside the flag package,
    [Some (inr a)] when [TryParse] returned an error, its usage [a] was
    shown and the process ended with [os.Exit(1)], and [Some (inl st')]
    when the call returned. *)
Definition Parse (st : State) (osArgs : list string) : option (State + Action) :=
  '(st', res) ← TryParse st osArgs;
  match res with
  | Some tp => Some (inr (TryParseError_Usage st' tp))
  | None => Some (inl st')
  end.

(** [ParseAndRun]: [Parse], then [Run] if it returned. *)
Definition ParseAndRun (st : State) (osArgs : list string)
  : option (option Action + Action) :=
  x ← Parse st osArgs;
  match x with
  | inl st' => Some (inl (Run st'))
  | inr a => Some (inr a)
  end.

End Dispatch.

(** * Properties of the argument specification *)

Section ArgumentSpecification.

Implicit Types (a : cmdArg) (ca slots : cmdArgs) (ts tokens : list string).

Lemma Validate_nil tokens :
  Validate [] tokens =
    match tokens with [] => None | _ :: _ => Some "too many arguments" end.
Proof. by destruct tokens. Qed.

Lemma Validate_mandatory_nil a ca :
  cmdArg_argType a = atMandatory →
  Validate (a :: ca) [] = Some "too few arguments".
Proof. intros Ha. unfold Validate. simpl. by rewrite Ha. Qed.

Lemma Validate_mandatory_cons a ca t ts :
  cmdArg_argType a = atMandatory →
  Validate (a :: ca) (t :: ts) = Validate ca ts.
Proof. intros Ha. unfold Validate. simpl. by rewrite Ha. Qed.

Lemma Validate_optional_nil a ca :
  cmdArg_argType a = atOptional →
  Validate (a :: ca) [] = Validate ca [].
Proof. intros Ha. unfold Validate. simpl. by rewrite Ha. Qed.

Lemma Validate_optional_cons a ca t ts :
  cmdArg_argType a = atOptional →
  Validate (a :: ca) (t :: ts) = Validate ca ts.
Proof. intros Ha. unfold Validate. simpl. by rewrite Ha. Qed.

Lemma Validate_ellipse a ca ts :
  cmdArg_argType a = atEllipse →
  Validate (a :: ca) ts = Validate ca [].
Proof. intros Ha. unfold Validate. simpl. by rewrite Ha, take_0. Qed.

Lemma outcome_error_inj o1 o2 : outcome_error o1 = outcome_error o2 → o1 = o2.
Proof. by destruct o1, o2. Qed.

Lemma Walk_Validate slots tokens o :
  Walk slots tokens o → Validate slots tokens = outcome_error o.
Proof.
  induction 1 as [ | t ts | a slots Ha | a slots t ts o Ha _ IH
                 | a slots t ts o Ha _ IH | a slots o Ha _ IH
                 | a slots ts o Ha _ IH ].
  - done.
  - done.
  - by apply Validate_mandatory_nil.
  - by rewrite Validate_mandatory_cons.
  - by rewrite Validate_optional_cons.
  - by rewrite Validate_optional_nil.
  - by rewrite Validate_ellipse.
Qed.

(** The walk always ends: every slot list and token list has an outcome. *)
Lemma Walk_total slots : ∀ tokens, ∃ o, Walk slots tokens o.
Proof.
  induction slots as [ | a slots IH ]; intros tokens.
  - destruct tokens; eexists; constructor.
  - destruct (cmdArg_argType a) eqn:Ha, tokens as [ | t ts ].
    + exists TooFew. by constructor.
    + destruct (IH ts) as [o Ho]. exists o. by apply Walk_mandatory_one.
    + destruct (IH []) as [o Ho]. exists o. by apply Walk_optional_none.
    + destruct (IH ts) as [o Ho]. exists o. by apply Walk_optional_one.
    + destruct (IH []) as [o Ho]. exists o. by apply Walk_variadic.
    + destruct (IH []) as [o Ho]. exists o. by apply Walk_variadic.
Qed.

(** C1. [Validate] returns the error of an outcome exactly when the
    left-to-right walk of the slots over the supplied tokens ends in that
    outcome: a Mandatory slot takes one token and gives too-few when none
    is left, an Optional slot takes one token only if one is left, a
    Variadic slot takes all remaining tokens, tokens left after the last
    slot give too-many, and otherwise the result is nil. *)
Theorem Validate_walks_slots slots tokens o :
  Validate slots tokens = outcome_error o ↔ Walk slots tokens o.
Proof.
  split; [ | apply Walk_Validate ].
  intros Hv. destruct (Walk_total slots tokens) as [o' Ho'].
  apply Walk_Validate in Ho' as Hv'.
  rewrite Hv in Hv'. by apply outcome_error_inj in Hv' as ->.
Qed.

Lemma Validate_no_mandatory_nil post :
  Forall (λ a, cmdArg_argType a ≠ atMandatory) post →
  Validate post [] = None.
Proof.
  induction 1 as [ | a post Ha _ IH ]; [done | ].
  destruct (cmdArg_argType a) eqn:Ht; [done | | ].
  - by rewrite Validate_optional_nil.
  - by rewrite Validate_ellipse.
Qed.

Lemma mandatory_served_tail a pre t ts :
  mandatory_served (a :: pre) (t :: ts) → mandatory_served pre ts.
Proof.
  intros H i b Hi Hb. specialize (H (S i) b Hi Hb). simpl in H. lia.
Qed.

Lemma mandatory_served_nil a pre :
  mandatory_served (a :: pre) [] → mandatory_served pre [].
Proof.
  intros H i b Hi Hb. specialize (H (S i) b Hi Hb). simpl in H. lia.
Qed.

(** C5, as the code has it.  When the first Variadic slot is followed by
    no Mandatory slot and every Mandatory slot before it is offered a
    token, [Validate] returns nil however many tokens are supplied. *)
Theorem Validate_variadic_ok pre v post tokens :
  cmdArg_argType v = atEllipse →
  Forall (λ a, cmdArg_argType a ≠ atEllipse) pre →
  mandatory_served pre tokens →
  Forall (λ a, cmdArg_argType a ≠ atMandatory) post →
  Validate (pre ++ v :: post) tokens = None.
Proof.
  intros Hv Hpre Hserved Hpost. revert tokens Hserved.
  induction Hpre as [ | a pre Ha _ IH ]; intros tokens Hserved; simpl.
  - rewrite Validate_ellipse by done. by apply Validate_no_mandatory_nil.
  - destruct (cmdArg_argType a) eqn:Ht; [ | | done ].
    + destruct tokens as [ | t ts ].
      * specialize (Hserved 0 a eq_refl Ht). simpl in Hserved. lia.
      * rewrite Validate_mandatory_cons by done.
        apply IH. by eapply mandatory_served_tail.
    + destruct tokens as [ | t ts ].
      * rewrite Validate_optional_nil by done.
        apply IH. by eapply mandatory_served_nil.
      * rewrite Validate_optional_cons by done.
        apply IH. by eapply mandatory_served_tail.
Qed.

Lemma Validate_variadic_ok_witness :
  Validate ([mkCmdArg "<branch>" atMandatory; mkCmdArg "[tag]" atOptional]
              ++ mkCmdArg "..." atEllipse :: [mkCmdArg "[x]" atOptional])
           ["main"; "a"; "b"; "c"] = None.
Proof.
  apply Validate_variadic_ok.
  - reflexivity.
  - repeat constructor; discriminate.
  - intros [ | [ | [ | i ] ] ] a Hi Ha; simpl in *; try lia; discriminate.
  - repeat constructor; discriminate.
Defined.

(** C5, as the claim states it, fails: a Mandatory slot after the
    Variadic one finds no token, whatever was supplied. *)
Lemma Validate_variadic_then_mandatory :
  ¬ (∀ pre v post tokens,
       cmdArg_argType v = atEllipse →
       Forall (λ a, cmdArg_argType a ≠ atEllipse) pre →
       mandatory_served pre tokens →
       Validate (pre ++ v :: post) tokens = None).
Proof.
  intros H.
  specialize (H [] (mkCmdArg "..." atEllipse) [mkCmdArg "<x>" atMandatory]
                ["a"; "b"] eq_refl (Forall_nil_2 _)).
  assert (Hs : mandatory_served [] ["a"; "b"]) by (intros i a Hi; done).
  specialize (H Hs). vm_compute in H. discriminate.
Qed.

Lemma last_char_get s :
  String.get (String.length s - 1) s = last_char s.
Proof.
  induction s as [ | c s IH ]; [done | ].
  destruct s as [ | c' s ]; [done | ].
  change (last_char (String c (String c' s))) with (last_char (String c' s)).
  rewrite <- IH. simpl. by rewrite Nat.sub_0_r.
Qed.

(** C9. For a non-empty pattern, [cmdArgFromString] yields the Variadic
    slot for the literal [...]; otherwise an Optional slot named by the
    pattern itself, brackets kept, when the first character is an opening
    and the last a closing square bracket; otherwise a Mandatory slot
    named by the pattern between angle brackets. *)
Theorem cmdArgFromString_classifies (argPattern : string) :
  argPattern ≠ EmptyString →
  cmdArgFromString argPattern =
    Some (if decide (argPattern = "...") then mkCmdArg "..." atEllipse
          else if decide (first_char argPattern = Some "["%char
                          ∧ last_char argPattern = Some "]"%char)
               then mkCmdArg argPattern atOptional
               else mkCmdArg ("<" +:+ argPattern +:+ ">") atMandatory).
Proof.
  intros Hne. unfold cmdArgFromString.
  destruct (String.eqb_spec argPattern "...") as [-> | Hdots].
  { by rewrite decide_True. }
  rewrite decide_False by done.
  rewrite last_char_get.
  destruct argPattern as [ | c s ]; [done | ].
  change (String.get 0 (String c s)) with (Some c).
  change (first_char (String c s)) with (Some c).
  destruct (last_char (String c s)) as [l | ] eqn:Hl.
  - destruct (decide (Some c = Some "["%char ∧ Some l = Some "]"%char))
      as [[Hc Hlast] | Hn].
    + by simplify_eq.
    + destruct (Ascii.eqb_spec c "["%char) as [-> | Hc];
        destruct (Ascii.eqb_spec l "]"%char) as [-> | Hlast]; try done.
      by destruct Hn.
  - exfalso. clear -Hl. revert c Hl.
    induction s as [ | c' s IH ]; intros c Hl; [done | ].
    by apply (IH c').
Qed.

Lemma cmdArgFromString_classifies_witness :
  cmdArgFromString "[env]" = Some (mkCmdArg "[env]" atOptional).
Proof. apply (cmdArgFromString_classifies "[env]"). discriminate. Defined.

End ArgumentSpecification.

(** * Properties of the resolution engine *)

Section ResolutionProperties.

Context `{FP : FlagPackage}.

Implicit Types (st : State) (residue osArgs tokens : list string)
               (cont : cmdCont) (e : TryParseError).

(** ** The pre-argument block *)

Lemma write_preargs_length (ds : list preArgDef) residue :
  length (write_preargs ds residue) = length ds.
Proof. apply length_imap. Qed.

Lemma write_preargs_lookup (ds : list preArgDef) residue i :
  write_preargs ds residue !! i = (λ d, set_val d (Arg residue i)) <$> ds !! i.
Proof. apply list_lookup_imap. Qed.

Lemma Arg_lookup residue i t : residue !! i = Some t → Arg residue i = t.
Proof. unfold Arg. by intros ->. Qed.

(** Each declared pre-argument takes the token at its own index. *)
Lemma write_preargs_token (ds : list preArgDef) residue i d :
  (length ds ≤ length residue)%nat →
  ds !! i = Some d →
  ∃ t, residue !! i = Some t
       ∧ write_preargs ds residue !! i = Some (set_val d t).
Proof.
  intros Hlen Hd.
  destruct (lookup_lt_is_Some_2 residue i) as [t Ht].
  { apply lookup_lt_Some in Hd. lia. }
  exists t. split; [done | ].
  by rewrite write_preargs_lookup, Hd, (Arg_lookup _ _ _ Ht).
Qed.

Lemma expectedArgCount_consume st residue :
  consumePreargs st residue = true →
  expectedArgCount st residue = length (preargdefs st) + 1
  ∧ commandNameArgN st residue = length (preargdefs st).
Proof. unfold expectedArgCount, commandNameArgN. by intros ->. Qed.

Lemma expectedArgCount_skip st residue :
  consumePreargs st residue = false →
  expectedArgCount st residue = 1 ∧ commandNameArgN st residue = 0.
Proof. unfold expectedArgCount, commandNameArgN. by intros ->. Qed.

Lemma after_preargs_resolution_state st residue :
  resolution_state (after_preargs st residue) = resolution_state st.
Proof. unfold after_preargs. by destruct (consumePreargs st residue). Qed.

Lemma after_preargs_reserveHFlag st residue :
  reserveHFlag (after_preargs st residue) = reserveHFlag st.
Proof. unfold after_preargs. by destruct (consumePreargs st residue). Qed.

Lemma after_preargs_CommandLine st residue :
  CommandLine (after_preargs st residue) = CommandLine st.
Proof. unfold after_preargs. by destruct (consumePreargs st residue). Qed.

Lemma TryParse_global st osArgs cl :
  fs_Parse (CommandLine st) osArgs = Some cl →
  TryParse st osArgs = TryParse_residue (set_CommandLine st cl) (fs_Args cl).
Proof. unfold TryParse. by intros ->. Qed.

Lemma TryParse_returns st osArgs st' r :
  TryParse st osArgs = Some (st', r) →
  ∃ cl, fs_Parse (CommandLine st) osArgs = Some cl
        ∧ TryParse_residue (set_CommandLine st cl) (fs_Args cl) = Some (st', r).
Proof.
  unfold TryParse. destruct (fs_Parse (CommandLine st) osArgs) as [cl | ]; [ | done ].
  intros H. by exists cl.
Qed.

(** ** No registered command *)

(** C10. With no registered command, [TryParse] returns nil as soon as
    the global flags are parsed, for every command line: the only thing
    it leaves changed is the global flag set, so no pre-argument value is
    written, no error of any reason is returned and the matched
    descriptor, the arguments and the help flag are as before. *)
Theorem TryParse_no_commands st osArgs :
  size (cmds st) < 1 →
  TryParse st osArgs
    = (cl ← fs_Parse (CommandLine st) osArgs; Some (set_CommandLine st cl, None))
  ∧ ∀ st' r, TryParse st osArgs = Some (st', r) →
      r = None
      ∧ preargdefs st' = preargdefs st
      ∧ resolution_state st' = resolution_state st.
Proof.
  intros Hempty.
  assert (Heq : TryParse st osArgs
    = (cl ← fs_Parse (CommandLine st) osArgs; Some (set_CommandLine st cl, None))).
  { unfold TryParse.
    destruct (fs_Parse (CommandLine st) osArgs) as [cl | ]; [ | done ]. simpl.
    unfold TryParse_residue. by rewrite decide_True. }
  split; [done | ].
  intros st' r. rewrite Heq.
  destruct (fs_Parse (CommandLine st) osArgs) as [cl | ]; [ | done ].
  simpl. by intros [= <- <-].
Qed.

(** ** Too few tokens for the pre-arguments or for the command name *)

Lemma TryParse_residue_no_prearg st residue :
  (1 ≤ size (cmds st))%nat →
  consumePreargs st residue = true →
  length residue < length (preargdefs st) →
  TryParse_residue st residue =
    Some (st, Some (mkTryParseError TryParseNoPreArg EmptyString
                      ("expected " +:+ pretty (length (preargdefs st))
                       +:+ " argument(s) before command"))).
Proof.
  intros Hsize Hconsume Hlt. unfold TryParse_residue.
  rewrite decide_False by lia.
  destruct (expectedArgCount_consume _ _ Hconsume) as [-> _].
  rewrite Hconsume, Nat.add_sub, bool_decide_true by done. done.
Qed.

Lemma TryParse_residue_no_command st residue :
  (1 ≤ size (cmds st))%nat →
  length residue < expectedArgCount st residue →
  ¬ (consumePreargs st residue = true ∧ length residue < length (preargdefs st)) →
  TryParse_residue st residue =
    Some (after_preargs st residue,
          Some (mkTryParseError TryParseNoCommand EmptyString "missing command")).
Proof.
  intros Hsize Hlt Hpre. unfold TryParse_residue.
  rewrite decide_False by lia.
  destruct (consumePreargs st residue) eqn:Hconsume; simpl.
  - destruct (expectedArgCount_consume _ _ Hconsume) as [Hexp _].
    rewrite bool_decide_false by (rewrite Hexp, Nat.add_sub; naive_solver lia).
    by rewrite decide_True.
  - by rewrite decide_True.
Qed.

Lemma TryParse_residue_command st residue :
  (1 ≤ size (cmds st))%nat →
  (expectedArgCount st residue ≤ length residue)%nat →
  TryParse_residue st residue =
    match cmds st !! command_token st residue with
    | Some cont =>
        TryParse_matched (after_preargs st residue)
                         (drop (commandNameArgN st residue + 1) residue)
                         (command_token st residue) cont
    | None =>
        Some (after_preargs st residue,
              Some (mkTryParseError TryParseInvalidCommand EmptyString
                      ("invalid command: " +:+ command_token st residue)))
    end.
Proof.
  intros Hsize Hle. unfold TryParse_residue.
  rewrite decide_False by lia.
  rewrite bool_decide_false, andb_false_r by lia.
  by rewrite decide_False by lia.
Qed.

(** The errors of the matched branch carry neither of the two early
    reasons. *)
Lemma check_command_reason name cont visited tokens e :
  check_command name cont visited tokens = Some e →
  (Reason e = TryParseInvalidCommand
   ∧ 0 < size (flagMap (cmdCont_requiredFlags cont) visited))
  ∨ (Reason e = TryParseArgError
     ∧ size (flagMap (cmdCont_requiredFlags cont) visited) = 0).
Proof.
  unfold check_command. repeat case_match; intros [= <-]; simpl; [by left | right ].
  split; [done | lia].
Qed.

Lemma lookup_size_pos (m : gmap string cmdCont) name cont :
  m !! name = Some cont → (1 ≤ size m)%nat.
Proof.
  intros Hm. destruct (size m) eqn:Hsize; [ | lia ].
  apply map_size_empty_iff in Hsize. subst m. by rewrite lookup_empty in Hm.
Qed.

Lemma recorded_preargdefs st fs cont :
  preargdefs (recorded st fs cont) = preargdefs st.
Proof. unfold recorded. by destruct (reserveHFlag st). Qed.

Lemma recorded_CommandLine st fs cont :
  CommandLine (recorded st fs cont) = CommandLine st.
Proof. unfold recorded. by destruct (reserveHFlag st). Qed.

Lemma recorded_args st fs cont : args (recorded st fs cont) = fs_Args fs.
Proof. done. Qed.

Lemma recorded_matchingCmd st fs cont :
  matchingCmd (recorded st fs cont) = Some cont.
Proof. done. Qed.

Lemma command_flag_set_after st cl residue name cont tokens :
  command_flag_set (after_preargs (set_CommandLine st cl) residue) name cont tokens
  = command_flag_set st name cont tokens.
Proof. unfold command_flag_set. by rewrite after_preargs_reserveHFlag. Qed.

(** The five ways in which the part of [TryParse] after the global parse
    returns. *)
Lemma TryParse_residue_inv st residue st' r :
  TryParse_residue st residue = Some (st', r) →
  (size (cmds st) < 1 ∧ st' = st ∧ r = None)
  ∨ ((1 ≤ size (cmds st))%nat ∧ consumePreargs st residue = true
     ∧ length residue < length (preargdefs st) ∧ st' = st
     ∧ ∃ e, r = Some e ∧ Reason e = TryParseNoPreArg)
  ∨ ((1 ≤ size (cmds st))%nat ∧ length residue < expectedArgCount st residue
     ∧ st' = after_preargs st residue
     ∧ ∃ e, r = Some e ∧ Reason e = TryParseNoCommand)
  ∨ ((1 ≤ size (cmds st))%nat
     ∧ (expectedArgCount st residue ≤ length residue)%nat
     ∧ cmds st !! command_token st residue = None
     ∧ st' = after_preargs st residue
     ∧ r = Some (mkTryParseError TryParseInvalidCommand EmptyString
                   ("invalid command: " +:+ command_token st residue)))
  ∨ ((1 ≤ size (cmds st))%nat
     ∧ (expectedArgCount st residue ≤ length residue)%nat
     ∧ ∃ cont fs,
         cmds st !! command_token st residue = Some cont
         ∧ command_flag_set (after_preargs st residue) (command_token st residue)
             cont (drop (commandNameArgN st residue + 1) residue) = Some fs
         ∧ st' = recorded (after_preargs st residue) fs cont
         ∧ r = check_command (command_token st residue) cont
                 (fs_Visit fs) (fs_Args fs)).
Proof.
  intros Hret.
  destruct (decide (size (cmds st) < 1)) as [Hempty | Hsize].
  { unfold TryParse_residue in Hret. rewrite decide_True in Hret by done.
    left. by simplify_eq. }
  right. assert (Hpos : (1 ≤ size (cmds st))%nat) by lia. clear Hsize.
  destruct (decide (consumePreargs st residue = true
                    ∧ length residue < length (preargdefs st))) as [[Hc Hlt] | Hpre].
  { rewrite TryParse_residue_no_prearg in Hret by done.
    left. simplify_eq. repeat split; try done. by eexists. }
  right.
  destruct (decide (length residue < expectedArgCount st residue)) as [Hlt | Hge].
  { rewrite TryParse_residue_no_command in Hret by done.
    left. simplify_eq. repeat split; try done. by eexists. }
  right. assert (Hle : (expectedArgCount st residue ≤ length residue)%nat) by lia.
  rewrite TryParse_residue_command in Hret by done.
  destruct (cmds st !! command_token st residue) as [cont | ] eqn:Hcont.
  - right. repeat split; try done. unfold TryParse_matched in Hret.
    destruct (command_flag_set _ _ _ _) as [fs | ] eqn:Hfs; [ | done ].
    simpl in Hret. exists cont, fs. by simplify_eq.
  - left. by simplify_eq.
Qed.

(** C8. While the pre-arguments are consumed, with [p] of them declared:
    fewer than [p] tokens give the no-pre-argument error and leave every
    pre-argument value as it was; exactly [p] tokens give the no-command
    error after each of the [p] values has been written from the token at
    its index, so that the values, in declaration order, are the tokens,
    while names and descriptions are kept; and with more than [p] tokens
    no returned error carries either of the two reasons. *)
Theorem TryParse_prearg_count st osArgs cl residue :
  fs_Parse (CommandLine st) osArgs = Some cl →
  fs_Args cl = residue →
  (1 ≤ size (cmds st))%nat →
  consumePreargs st residue = true →
  (length residue < length (preargdefs st) →
     TryParse st osArgs =
       Some (set_CommandLine st cl,
             Some (mkTryParseError TryParseNoPreArg EmptyString
                     ("expected " +:+ pretty (length (preargdefs st))
                      +:+ " argument(s) before command")))
     ∧ preargdefs (set_CommandLine st cl) = preargdefs st)
  ∧ (length residue = length (preargdefs st) →
       TryParse st osArgs =
         Some (set_preargdefs (set_CommandLine st cl)
                              (write_preargs (preargdefs st) residue),
               Some (mkTryParseError TryParseNoCommand EmptyString
                       "missing command"))
       ∧ preArgDef_val
           <$> preargdefs (set_preargdefs (set_CommandLine st cl)
                             (write_preargs (preargdefs st) residue))
         = residue
       ∧ ∀ i d, preargdefs st !! i = Some d →
           ∃ t d',
             residue !! i = Some t
             ∧ preargdefs (set_preargdefs (set_CommandLine st cl)
                             (write_preargs (preargdefs st) residue)) !! i
               = Some d'
             ∧ preArgDef_val d' = t
             ∧ preArgDef_name d' = preArgDef_name d
             ∧ preArgDef_desc d' = preArgDef_desc d)
  ∧ (length (preargdefs st) < length residue →
       ∀ st' e, TryParse st osArgs = Some (st', Some e) →
         Reason e ≠ TryParseNoPreArg ∧ Reason e ≠ TryParseNoCommand).
Proof.
  intros Hcl Hres Hsize Hconsume.
  rewrite (TryParse_global _ _ _ Hcl), Hres.
  assert (Hconsume' : consumePreargs (set_CommandLine st cl) residue = true)
    by exact Hconsume.
  destruct (expectedArgCount_consume _ _ Hconsume') as [Hexp _].
  change (preargdefs (set_CommandLine st cl)) with (preargdefs st) in Hexp.
  split; [ | split ].
  - intros Hlt. split; [ | done ].
    by rewrite TryParse_residue_no_prearg.
  - intros Heq. split.
    + rewrite TryParse_residue_no_command; try done.
      * unfold after_preargs. by rewrite Hconsume'.
      * rewrite Hexp. lia.
      * change (preargdefs (set_CommandLine st cl)) with (preargdefs st). lia.
    + split.
      * cbn [preargdefs set_preargdefs]. apply list_eq. intros i.
        rewrite list_lookup_fmap, write_preargs_lookup.
        destruct (preargdefs st !! i) as [d | ] eqn:Hd; simpl.
        -- destruct (write_preargs_token (preargdefs st) residue i d)
             as (t & Ht & _); [lia | done | ].
           by rewrite (Arg_lookup _ _ _ Ht).
        -- symmetry. apply lookup_ge_None. apply lookup_ge_None in Hd. lia.
      * intros i d Hd.
        destruct (write_preargs_token (preargdefs st) residue i d)
          as (t & Ht & Hw); [lia | done | ].
        exists t, (set_val d t). by repeat split.
  - intros Hgt st' e Hret.
    apply TryParse_residue_inv in Hret
      as [(Hempty & _) | [(_ & _ & Hlt & _) | [(_ & Hlt & _)
          | [(_ & _ & _ & _ & Hr) | (_ & _ & cont & fs & _ & _ & _ & Hr)]]]].
    + change (cmds (set_CommandLine st cl)) with (cmds st) in Hempty. lia.
    + change (preargdefs (set_CommandLine st cl)) with (preargdefs st) in Hlt. lia.
    + rewrite Hexp in Hlt. lia.
    + by simplify_eq.
    + symmetry in Hr. apply check_command_reason in Hr as [[-> _] | [-> _]]; done.
Qed.

(** ** The required-flag check *)

Lemma foldl_insert_lookup (required : list string) (m : gmap string bool) f :
  foldl (λ m f, <[f:=true]> m) m required !! f
  = if decide (f ∈ required) then Some true else m !! f.
Proof.
  revert m. induction required as [ | x required IH ]; intros m; cbn [foldl].
  - rewrite decide_False; [done | apply not_elem_of_nil].
  - rewrite IH. destruct (decide (f ∈ required)) as [Hin | Hnin].
    + rewrite decide_True; [done | by right].
    + destruct (decide (x = f)) as [-> | Hne].
      * rewrite lookup_insert_eq, decide_True; [done | by left].
      * rewrite lookup_insert_ne by done.
        rewrite decide_False; [done | ].
        intros [-> | ?]%elem_of_cons; done.
Qed.

Lemma foldl_delete_lookup (visited : list string) (m : gmap string bool) f :
  foldl (λ m f, delete f m) m visited !! f
  = if decide (f ∈ visited) then None else m !! f.
Proof.
  revert m. induction visited as [ | x visited IH ]; intros m; cbn [foldl].
  - rewrite decide_False; [done | apply not_elem_of_nil].
  - rewrite IH. destruct (decide (f ∈ visited)) as [Hin | Hnin].
    + rewrite decide_True; [done | by right].
    + destruct (decide (x = f)) as [-> | Hne].
      * rewrite lookup_delete_eq, decide_True; [done | by left].
      * rewrite lookup_delete_ne by done.
        rewrite decide_False; [done | ].
        intros [-> | ?]%elem_of_cons; done.
Qed.

Lemma flagMap_lookup required visited f :
  flagMap required visited !! f
  = if decide (f ∈ visited) then None
    else if decide (f ∈ required) then Some true else None.
Proof.
  unfold flagMap. rewrite foldl_delete_lookup, foldl_insert_lookup.
  by rewrite lookup_empty.
Qed.

(** The map is non-empty exactly when a required flag was not visited. *)
Lemma flagMap_missing required visited :
  0 < size (flagMap required visited) ↔ ∃ f, f ∈ required ∧ f ∉ visited.
Proof.
  split.
  - intros Hpos.
    destruct (map_choose (flagMap required visited)) as (f & b & Hf).
    { intros Hempty. rewrite Hempty, map_size_empty in Hpos. lia. }
    rewrite flagMap_lookup in Hf. exists f.
    destruct (decide (f ∈ visited)); [done | ].
    by destruct (decide (f ∈ required)).
  - intros (f & Hreq & Hvis).
    assert (Hf : flagMap required visited !! f = Some true).
    { rewrite flagMap_lookup. by rewrite decide_False, decide_True. }
    destruct (size (flagMap required visited)) eqn:Hsize; [ | lia ].
    apply map_size_empty_iff in Hsize. rewrite Hsize, lookup_empty in Hf. done.
Qed.

(** [TryParse] when the command token names a registered command and the
    parse of its flags returns. *)
Lemma TryParse_command st osArgs cl residue cont fs :
  fs_Parse (CommandLine st) osArgs = Some cl →
  fs_Args cl = residue →
  (expectedArgCount st residue ≤ length residue)%nat →
  cmds st !! command_token st residue = Some cont →
  command_flag_set st (command_token st residue) cont
    (drop (commandNameArgN st residue + 1) residue) = Some fs →
  TryParse st osArgs =
    Some (recorded (after_preargs (set_CommandLine st cl) residue) fs cont,
          check_command (command_token st residue) cont (fs_Visit fs) (fs_Args fs)).
Proof.
  intros Hcl Hres Hle Hcont Hfs.
  rewrite (TryParse_global _ _ _ Hcl), Hres.
  rewrite TryParse_residue_command; [ | by eapply lookup_size_pos | done ].
  change (cmds (set_CommandLine st cl) !! command_token (set_CommandLine st cl) residue)
    with (cmds st !! command_token st residue).
  rewrite Hcont. unfold TryParse_matched.
  change (command_token (set_CommandLine st cl) residue)
    with (command_token st residue).
  change (commandNameArgN (set_CommandLine st cl) residue)
    with (commandNameArgN st residue).
  by rewrite command_flag_set_after, Hfs.
Qed.

(** C6. When the command token names a registered command and the parse
    of its flags leaves a required flag unset, [TryParse] returns the
    invalid-command error naming that command. *)
Theorem TryParse_missing_required_flag st osArgs cl residue cont fs f :
  fs_Parse (CommandLine st) osArgs = Some cl →
  fs_Args cl = residue →
  (expectedArgCount st residue ≤ length residue)%nat →
  cmds st !! command_token st residue = Some cont →
  command_flag_set st (command_token st residue) cont
    (drop (commandNameArgN st residue + 1) residue) = Some fs →
  f ∈ cmdCont_requiredFlags cont →
  f ∉ fs_Visit fs →
  TryParse st osArgs =
    Some (recorded (after_preargs (set_CommandLine st cl) residue) fs cont,
          Some (mkTryParseError TryParseInvalidCommand (command_token st residue)
                  (command_token st residue +:+ ": missing required flags"))).
Proof.
  intros Hcl Hres Hle Hcont Hfs Hreq Hvis.
  rewrite (TryParse_command _ _ _ _ _ _ Hcl Hres Hle Hcont Hfs).
  unfold check_command. rewrite decide_True; [done | ].
  apply flagMap_missing. by exists f.
Qed.

(** ** The arity check *)

Lemma Validate_all_mandatory (ca : cmdArgs) :
  Forall (λ a, cmdArg_argType a = atMandatory) ca →
  ∀ tokens,
    Validate ca tokens =
      if decide (length tokens < length ca) then Some "too few arguments"
      else if decide (length tokens = length ca) then None
      else Some "too many arguments".
Proof.
  induction 1 as [ | a ca Ha _ IH ]; intros tokens.
  - rewrite Validate_nil. by destruct tokens.
  - destruct tokens as [ | t ts ].
    + by rewrite Validate_mandatory_nil.
    + rewrite Validate_mandatory_cons, IH by done. simpl.
      repeat case_decide; (done || lia).
Qed.

(** C2. For a command whose argument specification is [k] Mandatory
    slots, a call that gets to the arity check with [n] positional tokens
    returns the argument error with the too-few message when [n < k], nil
    when [n = k], and the argument error with the too-many message when
    [n > k]. *)
Theorem TryParse_mandatory_arity st osArgs cl residue cont fs ca :
  fs_Parse (CommandLine st) osArgs = Some cl →
  fs_Args cl = residue →
  (expectedArgCount st residue ≤ length residue)%nat →
  cmds st !! command_token st residue = Some cont →
  command_flag_set st (command_token st residue) cont
    (drop (commandNameArgN st residue + 1) residue) = Some fs →
  size (flagMap (cmdCont_requiredFlags cont) (fs_Visit fs)) = 0 →
  cmdCont_args cont = Some ca →
  Forall (λ a, cmdArg_argType a = atMandatory) ca →
  TryParse st osArgs =
    Some (recorded (after_preargs (set_CommandLine st cl) residue) fs cont,
          if decide (length (fs_Args fs) < length ca) then
            Some (mkTryParseError TryParseArgError (command_token st residue)
                    (command_token st residue +:+ ": too few arguments"))
          else if decide (length (fs_Args fs) = length ca) then None
          else
            Some (mkTryParseError TryParseArgError (command_token st residue)
                    (command_token st residue +:+ ": too many arguments"))).
Proof.
  intros Hcl Hres Hle Hcont Hfs Hflags Hargs Hmand.
  rewrite (TryParse_command _ _ _ _ _ _ Hcl Hres Hle Hcont Hfs).
  unfold check_command. rewrite decide_False by lia.
  rewrite Hargs, (Validate_all_mandatory _ Hmand).
  by repeat case_decide.
Qed.

(** ** Where the pre-arguments and the command name are read *)

Lemma after_preargs_consume st residue :
  consumePreargs st residue = true →
  preargdefs (after_preargs st residue) = write_preargs (preargdefs st) residue.
Proof. unfold after_preargs. by intros ->. Qed.

Lemma after_preargs_skip st residue :
  consumePreargs st residue = false → after_preargs st residue = st.
Proof. unfold after_preargs. by intros ->. Qed.

(** The pre-argument values a returning call leaves, unless it stopped
    on too few tokens for them. *)
Lemma TryParse_residue_preargdefs st residue st' r :
  TryParse_residue st residue = Some (st', r) →
  (1 ≤ size (cmds st))%nat →
  ¬ (consumePreargs st residue = true ∧ length residue < length (preargdefs st)) →
  preargdefs st' = preargdefs (after_preargs st residue).
Proof.
  intros Hret Hsize Hpre.
  apply TryParse_residue_inv in Hret
    as [(Hempty & _) | [(_ & Hc & Hlt & _) | [(_ & _ & -> & _)
        | [(_ & _ & _ & -> & _) | (_ & _ & cont & fs & _ & _ & -> & _)]]]].
  - lia.
  - by destruct Hpre.
  - done.
  - done.
  - by apply recorded_preargdefs.
Qed.

(** C7. When the pre-arguments are consumed and there are at least as
    many tokens as declarations, a returning call has written the value
    of every declaration from the token at its index and kept their
    number and order; when they are skipped the values are untouched.
    The command name is the token at the index that equals the number of
    declarations, or at index 0 when they are skipped: that token selects
    the matched descriptor, or is the one named in the invalid-command
    error. *)
Theorem TryParse_prearg_positions st osArgs cl residue st' r :
  fs_Parse (CommandLine st) osArgs = Some cl →
  fs_Args cl = residue →
  (1 ≤ size (cmds st))%nat →
  TryParse st osArgs = Some (st', r) →
  (consumePreargs st residue = true →
   (length (preargdefs st) ≤ length residue)%nat →
     length (preargdefs st') = length (preargdefs st)
     ∧ ∀ i d, preargdefs st !! i = Some d →
         ∃ t, residue !! i = Some t
              ∧ preargdefs st' !! i = Some (set_val d t))
  ∧ (consumePreargs st residue = false → preargdefs st' = preargdefs st)
  ∧ (∀ name,
       residue !! (if consumePreargs st residue
                   then length (preargdefs st) else 0) = Some name →
       match cmds st !! name with
       | Some cont => matchingCmd st' = Some cont
       | None =>
           r = Some (mkTryParseError TryParseInvalidCommand EmptyString
                       ("invalid command: " +:+ name))
       end).
Proof.
  intros Hcl Hres Hsize Hret.
  rewrite (TryParse_global _ _ _ Hcl), Hres in Hret.
  split; [ | split ].
  - intros Hconsume Hlen.
    apply TryParse_residue_preargdefs in Hret as ->; [ | done | ].
    2:{ change (preargdefs (set_CommandLine st cl)) with (preargdefs st). lia. }
    rewrite after_preargs_consume by done.
    change (preargdefs (set_CommandLine st cl)) with (preargdefs st).
    split; [apply write_preargs_length | ].
    intros i d Hd. by apply write_preargs_token.
  - intros Hskip.
    apply TryParse_residue_preargdefs in Hret as ->; [ | done | ].
    2:{ change (consumePreargs (set_CommandLine st cl) residue)
          with (consumePreargs st residue). rewrite Hskip. by intros [? _]. }
    by rewrite after_preargs_skip.
  - intros name Hname.
    change (if consumePreargs st residue then length (preargdefs st) else 0)
      with (commandNameArgN st residue) in Hname.
    assert (Htoken : command_token st residue = name).
    { unfold command_token. by apply Arg_lookup. }
    assert (Hexp : (expectedArgCount st residue ≤ length residue)%nat).
    { apply lookup_lt_Some in Hname. unfold expectedArgCount.
      destruct (consumePreargs st residue) eqn:Hc.
      - lia.
      - destruct (expectedArgCount_skip _ _ Hc) as [_ Hn]. lia. }
    rewrite TryParse_residue_command in Hret by done.
    change (cmds (set_CommandLine st cl) !! command_token (set_CommandLine st cl) residue)
      with (cmds st !! command_token st residue) in Hret.
    rewrite Htoken in Hret.
    destruct (cmds st !! name) as [cont | ]; [ | by simplify_eq ].
    unfold TryParse_matched in Hret.
    destruct (command_flag_set _ _ _ _) as [fs | ]; [ | done ].
    simpl in Hret. by simplify_eq.
Qed.

(** ** The help override *)



(** ** When the resolution state is written *)

(** C4, as the code has it.  The matched descriptor and the positional
    arguments are recorded as soon as the command name is matched and
    its flags are parsed, before the required-flag check and the arity
    check.  A call that returns the no-pre-argument or the no-command
    error, or the invalid-command error for a name that is not
    registered, leaves the resolution state as it was; a call that
    returns the argument error, or the invalid-command error for a
    registered name, has already recorded the descriptor of that name and
    the tokens its flag parse left, as a call that returns nil for a
    program with commands has. *)
Theorem TryParse_records_on_match st osArgs cl residue st' r :
  fs_Parse (CommandLine st) osArgs = Some cl →
  fs_Args cl = residue →
  TryParse st osArgs = Some (st', r) →
  (∀ e, r = Some e →
     Reason e = TryParseNoPreArg ∨ Reason e = TryParseNoCommand
     ∨ (Reason e = TryParseInvalidCommand
        ∧ cmds st !! command_token st residue = None) →
     resolution_state st' = resolution_state st)
  ∧ ((∃ e, r = Some e
           ∧ (Reason e = TryParseArgError
              ∨ (Reason e = TryParseInvalidCommand
                 ∧ is_Some (cmds st !! command_token st residue))))
     ∨ (r = None ∧ (1 ≤ size (cmds st))%nat) →
     ∃ cont fs,
       cmds st !! command_token st residue = Some cont
       ∧ command_flag_set st (command_token st residue) cont
           (drop (commandNameArgN st residue + 1) residue) = Some fs
       ∧ matchingCmd st' = Some cont
       ∧ args st' = fs_Args fs
       ∧ r = check_command (command_token st residue) cont
               (fs_Visit fs) (fs_Args fs)).
Proof.
  intros Hcl Hres Hret.
  rewrite (TryParse_global _ _ _ Hcl), Hres in Hret.
  apply TryParse_residue_inv in Hret
    as [(Hempty & -> & ->) | [(_ & _ & _ & -> & e0 & -> & He0)
        | [(_ & _ & -> & e0 & -> & He0)
        | [(_ & _ & Hnone & -> & ->)
        | (_ & _ & cont & fs & Hcont & Hfs & -> & ->)]]]].
  - change (cmds (set_CommandLine st cl)) with (cmds st) in Hempty.
    split; [done | ].
    intros [(e & He & _) | [_ Hsize]]; [done | lia].
  - split; [done | ].
    intros [(e & [= <-] & [He | [He _]]) | [? _]]; congruence.
  - split; [intros; by rewrite after_preargs_resolution_state | ].
    intros [(e & [= <-] & [He | [He _]]) | [? _]]; congruence.
  - change (cmds (set_CommandLine st cl) !! command_token (set_CommandLine st cl) residue)
      with (cmds st !! command_token st residue) in Hnone.
    split; [intros; by rewrite after_preargs_resolution_state | ].
    intros [(e & [= <-] & [He | [_ Hsome]]) | [? _]]; try done.
    rewrite Hnone in Hsome. by destruct Hsome.
  - change (cmds (set_CommandLine st cl) !! command_token (set_CommandLine st cl) residue)
      with (cmds st !! command_token st residue) in Hcont.
    change (command_token (set_CommandLine st cl) residue)
      with (command_token st residue) in *.
    change (commandNameArgN (set_CommandLine st cl) residue)
      with (commandNameArgN st residue) in Hfs.
    rewrite command_flag_set_after in Hfs.
    split.
    + intros e He Hreason.
      apply check_command_reason in He as [[He _] | [He _]];
        destruct Hreason as [Hr | [Hr | [_ Hnone]]]; congruence.
    + intros _. by exists cont, fs.
Qed.

End ResolutionProperties.

(** * The theorems on concrete command lines *)

Section Runs.

Import Examples.

(** [deploy -force prod]: one Mandatory slot, one token. *)
Lemma TryParse_mandatory_arity_witness :
  TryParse deploy_program ["deploy"; "-force"; "prod"] =
    Some (recorded
            (after_preargs
               (set_CommandLine deploy_program
                  (global_parsed deploy_program ["deploy"; "-force"; "prod"]))
               ["deploy"; "-force"; "prod"])
            (command_parsed deploy_program "deploy" deploy ["-force"; "prod"])
            deploy,
          None).
Proof.
  apply (TryParse_mandatory_arity deploy_program ["deploy"; "-force"; "prod"]
           (global_parsed deploy_program ["deploy"; "-force"; "prod"])
           ["deploy"; "-force"; "prod"] deploy
           (command_parsed deploy_program "deploy" deploy ["-force"; "prod"])
           [mkCmdArg "<env>" atMandatory]).
  - reflexivity.
  - reflexivity.
  - vm_compute. lia.
  - reflexivity.
  - reflexivity.
  - reflexivity.
  - reflexivity.
  - repeat constructor.
Defined.

(** [deploy prod]: the required flag [force] is not set. *)
Lemma TryParse_missing_required_flag_witness :
  TryParse deploy_program ["deploy"; "prod"] =
    Some (recorded
            (after_preargs
               (set_CommandLine deploy_program
                  (global_parsed deploy_program ["deploy"; "prod"]))
               ["deploy"; "prod"])
            (command_parsed deploy_program "deploy" deploy ["prod"])
            deploy,
          Some (mkTryParseError TryParseInvalidCommand "deploy"
                  "deploy: missing required flags")).
Proof.
  apply (TryParse_missing_required_flag deploy_program ["deploy"; "prod"]
           (global_parsed deploy_program ["deploy"; "prod"])
           ["deploy"; "prod"] deploy
           (command_parsed deploy_program "deploy" deploy ["prod"])
           "force").
  - reflexivity.
  - reflexivity.
  - vm_compute. lia.
  - reflexivity.
  - reflexivity.
  - apply list_elem_of_here.
  - apply not_elem_of_nil.
Defined.



(** [deploy -force]: the argument error is returned after the descriptor
    and the arguments have been recorded. *)
Lemma TryParse_records_on_match_witness :
  ∃ cont fs,
    cmds deploy_program !! "deploy" = Some cont
    ∧ command_flag_set deploy_program "deploy" cont ["-force"] = Some fs
    ∧ matchingCmd
        (recorded
           (after_preargs
              (set_CommandLine deploy_program
                 (global_parsed deploy_program ["deploy"; "-force"]))
              ["deploy"; "-force"])
           (command_parsed deploy_program "deploy" deploy ["-force"])
           deploy) = Some cont
    ∧ fs_Args (command_parsed deploy_program "deploy" deploy ["-force"])
      = fs_Args fs
    ∧ Some (mkTryParseError TryParseArgError "deploy" "deploy: too few arguments")
      = check_command "deploy" cont (fs_Visit fs) (fs_Args fs).
Proof.
  assert (Hcl : fs_Parse (CommandLine deploy_program) ["deploy"; "-force"]
                = Some (global_parsed deploy_program ["deploy"; "-force"]))
    by reflexivity.
  assert (Hret : TryParse deploy_program ["deploy"; "-force"] =
    Some (recorded
            (after_preargs
               (set_CommandLine deploy_program
                  (global_parsed deploy_program ["deploy"; "-force"]))
               ["deploy"; "-force"])
            (command_parsed deploy_program "deploy" deploy ["-force"])
            deploy,
          Some (mkTryParseError TryParseArgError "deploy"
                  "deploy: too few arguments")))
    by reflexivity.
  destruct (TryParse_records_on_match deploy_program ["deploy"; "-force"] _
              ["deploy"; "-force"] _ _ Hcl eq_refl Hret) as [_ Hrec].
  apply Hrec. left. eexists. split; [reflexivity | by left].
Defined.

(** C4, as the claim states it, fails: [deploy -force] returns the
    argument error and the matched descriptor is no longer nil. *)
Lemma TryParse_error_changes_state :
  ¬ (∀ (st : State) osArgs st' e,
       TryParse st osArgs = Some (st', Some e) →
       resolution_state st' = resolution_state st).
Proof.
  intros H.
  specialize (H deploy_program ["deploy"; "-force"]
    (recorded
       (after_preargs
          (set_CommandLine deploy_program
             (global_parsed deploy_program ["deploy"; "-force"]))
          ["deploy"; "-force"])
       (command_parsed deploy_program "deploy" deploy ["-force"])
       deploy)
    (mkTryParseError TryParseArgError "deploy" "deploy: too few arguments")
    eq_refl).
  apply (f_equal (λ s, s.1.1)) in H. discriminate H.
Qed.

(** [acme myrepo status] with the pre-arguments [org] and [repo]. *)
Lemma TryParse_prearg_positions_witness :
  preargdefs (recorded
                (after_preargs
                   (set_CommandLine status_program
                      (global_parsed status_program ["acme"; "myrepo"; "status"]))
                   ["acme"; "myrepo"; "status"])
                (command_parsed status_program "status" status [])
                status) !! 1
  = Some (mkPreArgDef "repo" "The repository" "myrepo").
Proof.
  assert (Hcl : fs_Parse (CommandLine status_program) ["acme"; "myrepo"; "status"]
                = Some (global_parsed status_program ["acme"; "myrepo"; "status"]))
    by reflexivity.
  assert (Hsize : (1 ≤ size (cmds status_program))%nat) by (vm_compute; lia).
  assert (Hret : TryParse status_program ["acme"; "myrepo"; "status"] =
    Some (recorded
            (after_preargs
               (set_CommandLine status_program
                  (global_parsed status_program ["acme"; "myrepo"; "status"]))
               ["acme"; "myrepo"; "status"])
            (command_parsed status_program "status" status [])
            status,
          None))
    by reflexivity.
  destruct (TryParse_prearg_positions status_program _ _
              ["acme"; "myrepo"; "status"] _ _ Hcl eq_refl Hsize Hret)
    as (Hwritten & _ & _).
  destruct Hwritten as [_ Hval]; [reflexivity | vm_compute; lia | ].
  destruct (Hval 1 (mkPreArgDef "repo" "The repository" EmptyString) eq_refl)
    as (t & Ht & Hd).
  injection Ht as <-. exact Hd.
Defined.

(** [acme] alone, and [acme myrepo] without a command, with two
    pre-arguments declared. *)
Lemma TryParse_prearg_count_witness :
  TryParse status_program ["acme"] =
    Some (set_CommandLine status_program (global_parsed status_program ["acme"]),
          Some (mkTryParseError TryParseNoPreArg EmptyString
                  "expected 2 argument(s) before command"))
  ∧ TryParse status_program ["acme"; "myrepo"] =
      Some (set_preargdefs
              (set_CommandLine status_program
                 (global_parsed status_program ["acme"; "myrepo"]))
              (write_preargs (preargdefs status_program) ["acme"; "myrepo"]),
            Some (mkTryParseError TryParseNoCommand EmptyString "missing command"))
  ∧ preArgDef_val
      <$> preargdefs
            (set_preargdefs
               (set_CommandLine status_program
                  (global_parsed status_program ["acme"; "myrepo"]))
               (write_preargs (preargdefs status_program) ["acme"; "myrepo"]))
    = ["acme"; "myrepo"].
Proof.
  assert (Hsize : (1 ≤ size (cmds status_program))%nat) by (vm_compute; lia).
  split.
  - assert (Hcl : fs_Parse (CommandLine status_program) ["acme"]
                  = Some (global_parsed status_program ["acme"]))
      by reflexivity.
    destruct (TryParse_prearg_count status_program ["acme"] _ ["acme"]
                Hcl eq_refl Hsize eq_refl) as (Hfew & _ & _).
    destruct Hfew as [Hret _]; [vm_compute; lia | ].
    exact Hret.
  - assert (Hcl : fs_Parse (CommandLine status_program) ["acme"; "myrepo"]
                  = Some (global_parsed status_program ["acme"; "myrepo"]))
      by reflexivity.
    destruct (TryParse_prearg_count status_program ["acme"; "myrepo"] _
                ["acme"; "myrepo"] Hcl eq_refl Hsize eq_refl)
      as (_ & Hexact & _).
    destruct Hexact as (Hret & Hvals & _); [reflexivity | ].
    split; [exact Hret | exact Hvals].
Defined.

(** No command registered: any command line is accepted. *)
Lemma TryParse_no_commands_witness :
  TryParse start ["unknown-cmd"; "x"] =
    Some (set_CommandLine start (global_parsed start ["unknown-cmd"; "x"]), None).
Proof.
  assert (Hempty : size (cmds start) < 1) by (vm_compute; lia).
  destruct (TryParse_no_commands start ["unknown-cmd"; "x"] Hempty) as [Heq _].
  exact Heq.
Defined.

(** The scenarios of the specification. *)

Example push_arguments :
  cmdCont_args push
  = Some [mkCmdArg "<branch>" atMandatory; mkCmdArg "..." atEllipse].
Proof. reflexivity. Qed.

Example push_main_a_b_c :
  returned_reason (TryParse push_program ["push"; "main"; "a"; "b"; "c"])
  = Some None.
Proof. reflexivity. Qed.

Example push_without_branch :
  Message <$> (TryParse push_program ["push"] ≫= snd)
  = Some "push: too few arguments".
Proof. reflexivity. Qed.

Example unknown_command :
  returned_reason (TryParse push_program ["unknown-cmd"])
  = Some (Some TryParseInvalidCommand).
Proof. reflexivity. Qed.

Example status_with_preargs :
  (λ p, preArgDef_val <$> preargdefs p.1)
    <$> TryParse status_program ["acme"; "myrepo"; "status"]
  = Some ["acme"; "myrepo"].
Proof. reflexivity. Qed.

Example deploy_help_flag :
  (λ p, flagHelp p.1) <$> TryParse deploy_program ["deploy"; "-h"; "-force"; "prod"]
  = Some (Some true).
Proof. reflexivity. Qed.

Example undefined_flag_exits :
  TryParse deploy_program ["deploy"; "-verbose"] = None.
Proof. reflexivity. Qed.

End Runs.

(** * Further properties of the argument specification *)

Section ArgumentArity.

Implicit Types (a : cmdArg) (ca slots : cmdArgs) (ts tokens : list string).

(** The arity check never looks at the tokens themselves: two token
    lists of the same length get the same result. *)
Theorem Validate_length_only ca : ∀ ts ts',
  length ts = length ts' → Validate ca ts = Validate ca ts'.
Proof.
  induction ca as [ | a ca IH ]; intros ts ts' Hlen.
  - rewrite !Validate_nil. by destruct ts, ts'.
  - destruct (cmdArg_argType a) eqn:Ha.
    + destruct ts as [ | t ts ], ts' as [ | t' ts' ]; try done.
      rewrite !Validate_mandatory_cons by done. apply IH. by simplify_eq/=.
    + destruct ts as [ | t ts ], ts' as [ | t' ts' ]; try done.
      rewrite !Validate_optional_cons by done. apply IH. by simplify_eq/=.
    + by rewrite !(Validate_ellipse a).
Qed.

Lemma Validate_length_only_witness :
  Validate [mkCmdArg "<env>" atMandatory; mkCmdArg "[tag]" atOptional] ["prod"]
  = Validate [mkCmdArg "<env>" atMandatory; mkCmdArg "[tag]" atOptional] ["test"].
Proof. apply Validate_length_only. reflexivity. Defined.

Lemma Validate_nil_tokens ca : Validate ca [] ≠ Some "too many arguments".
Proof.
  induction ca as [ | a ca IH ]; [done | ].
  destruct (cmdArg_argType a) eqn:Ha.
  - by rewrite Validate_mandatory_nil.
  - by rewrite Validate_optional_nil.
  - by rewrite Validate_ellipse.
Qed.

(** Without a Variadic slot every slot takes at most one token, so the
    too-many error is returned exactly when there are more tokens than
    slots. *)
Theorem Validate_too_many_iff ca :
  Forall (λ a, cmdArg_argType a ≠ atEllipse) ca →
  ∀ ts, Validate ca ts = Some "too many arguments" ↔ length ca < length ts.
Proof.
  induction 1 as [ | a ca Ha _ IH ]; intros ts.
  - rewrite Validate_nil. destruct ts; simpl; split; (done || lia).
  - destruct (cmdArg_argType a) eqn:Ht; [ | | done ].
    + destruct ts as [ | t ts ].
      * rewrite Validate_mandatory_nil by done. simpl. split; (done || lia).
      * rewrite Validate_mandatory_cons, IH by done. simpl. lia.
    + destruct ts as [ | t ts ].
      * rewrite Validate_optional_nil, IH by done. simpl. lia.
      * rewrite Validate_optional_cons, IH by done. simpl. lia.
Qed.

Lemma Validate_too_many_iff_witness :
  Validate [mkCmdArg "<env>" atMandatory; mkCmdArg "[tag]" atOptional]
           ["prod"; "v1"; "extra"] = Some "too many arguments".
Proof.
  apply Validate_too_many_iff.
  - repeat constructor; discriminate.
  - simpl. lia.
Defined.

(** With a Variadic slot anywhere in the specification the too-many
    error is never returned. *)
Theorem Validate_variadic_never_too_many ca :
  Exists (λ a, cmdArg_argType a = atEllipse) ca →
  ∀ ts, Validate ca ts ≠ Some "too many arguments".
Proof.
  induction 1 as [ a ca Ha | a ca _ IH ]; intros ts.
  - rewrite Validate_ellipse by done. apply Validate_nil_tokens.
  - destruct (cmdArg_argType a) eqn:Ht.
    + destruct ts as [ | t ts ].
      * by rewrite Validate_mandatory_nil.
      * rewrite Validate_mandatory_cons by done. apply IH.
    + destruct ts as [ | t ts ].
      * rewrite Validate_optional_nil by done. apply IH.
      * rewrite Validate_optional_cons by done. apply IH.
    + rewrite Validate_ellipse by done. apply Validate_nil_tokens.
Qed.

Lemma Validate_variadic_never_too_many_witness :
  Validate [mkCmdArg "..." atEllipse; mkCmdArg "<x>" atMandatory] ["a"; "b"; "c"]
  ≠ Some "too many arguments".
Proof.
  apply Validate_variadic_never_too_many.
  apply Exists_cons_hd. reflexivity.
Defined.

(** The too-few error is returned exactly when some Mandatory slot has
    no token to take: its index is not below the number of tokens, or a
    Variadic slot stands before it. *)
Theorem Validate_too_few_iff ca : ∀ ts,
  Validate ca ts = Some "too few arguments"
  ↔ ∃ i a, ca !! i = Some a ∧ cmdArg_argType a = atMandatory
           ∧ ((length ts ≤ i)%nat
              ∨ ∃ j b, j < i ∧ ca !! j = Some b ∧ cmdArg_argType b = atEllipse).
Proof.
  induction ca as [ | a ca IH ]; intros ts.
  - rewrite Validate_nil. split.
    + by destruct ts.
    + by intros (i & b & Hi & _).
  - destruct (cmdArg_argType a) eqn:Ha.
    + destruct ts as [ | t ts ].
      * rewrite Validate_mandatory_nil by done. split; [ | done ].
        intros _. exists 0, a. repeat split; try done. left. simpl. lia.
      * rewrite Validate_mandatory_cons, IH by done. split.
        -- intros (i & b & Hi & Hb & Hwhy). exists (S i), b.
           repeat split; try done.
           destruct Hwhy as [Hlen | (j & c & Hj & Hc & Hell)].
           ++ left. simpl. lia.
           ++ right. exists (S j), c. repeat split; (done || lia).
        -- intros (i & b & Hi & Hb & Hwhy). destruct i as [ | i ].
           { destruct Hwhy as [Hlen | (j & c & Hj & _)]; [simpl in Hlen | ]; lia. }
           exists i, b. repeat split; try done.
           destruct Hwhy as [Hlen | (j & c & Hj & Hc & Hell)].
           ++ left. simpl in Hlen. lia.
           ++ right. destruct j as [ | j ]; [simpl in Hc; congruence | ].
              exists j, c. repeat split; (done || lia).
    + assert (Hstep : Validate (a :: ca) ts = Validate ca (drop 1 ts)).
      { destruct ts; [by rewrite Validate_optional_nil
                     | by rewrite Validate_optional_cons]. }
      rewrite Hstep, IH. rewrite length_drop. split.
      * intros (i & b & Hi & Hb & Hwhy). exists (S i), b.
        repeat split; try done.
        destruct Hwhy as [Hlen | (j & c & Hj & Hc & Hell)].
        -- left. lia.
        -- right. exists (S j), c. repeat split; (done || lia).
      * intros (i & b & Hi & Hb & Hwhy). destruct i as [ | i ].
        { simpl in Hi. congruence. }
        exists i, b. repeat split; try done.
        destruct Hwhy as [Hlen | (j & c & Hj & Hc & Hell)].
        -- left. lia.
        -- right. destruct j as [ | j ]; [simpl in Hc; congruence | ].
           exists j, c. repeat split; (done || lia).
    + rewrite Validate_ellipse, IH by done. split.
      * intros (i & b & Hi & Hb & _). exists (S i), b.
        repeat split; try done.
        right. exists 0, a. repeat split; (done || lia).
      * intros (i & b & Hi & Hb & _). destruct i as [ | i ].
        { simpl in Hi. congruence. }
        exists i, b. repeat split; try done. left. simpl. lia.
Qed.

Lemma Validate_all_optional (opt : cmdArgs) :
  Forall (λ a, cmdArg_argType a = atOptional) opt →
  ∀ ts, Validate opt ts =
          if decide (length ts ≤ length opt)%nat then None
          else Some "too many arguments".
Proof.
  induction 1 as [ | a opt Ha _ IH ]; intros ts.
  - rewrite Validate_nil. by destruct ts.
  - destruct ts as [ | t ts ].
    + rewrite Validate_optional_nil, IH by done. simpl.
      repeat case_decide; (done || lia).
    + rewrite Validate_optional_cons, IH by done. simpl.
      repeat case_decide; (done || lia).
Qed.

(** For the usual shape, [m] Mandatory slots followed by [o] Optional
    ones, the result is fixed by the number [n] of tokens: too few when
    [n < m], nil when [m ≤ n ≤ m + o], too many above. *)
Theorem Validate_mandatory_then_optional (mand opt : cmdArgs) :
  Forall (λ a, cmdArg_argType a = atMandatory) mand →
  Forall (λ a, cmdArg_argType a = atOptional) opt →
  ∀ ts, Validate (mand ++ opt) ts =
          if decide (length ts < length mand) then Some "too few arguments"
          else if decide (length ts ≤ length mand + length opt)%nat then None
          else Some "too many arguments".
Proof.
  intros Hmand Hopt.
  induction Hmand as [ | a mand Ha _ IH ]; intros ts; simpl.
  - rewrite (Validate_all_optional _ Hopt).
    repeat case_decide; (done || lia).
  - destruct ts as [ | t ts ].
    + rewrite Validate_mandatory_nil by done.
      repeat case_decide; (done || simpl in *; lia).
    + rewrite Validate_mandatory_cons, IH by done. simpl.
      repeat case_decide; (done || lia).
Qed.

Lemma Validate_mandatory_then_optional_witness :
  Validate ([mkCmdArg "<env>" atMandatory] ++ [mkCmdArg "[tag]" atOptional])
           ["prod"; "v1"] = None.
Proof.
  apply (Validate_mandatory_then_optional
           [mkCmdArg "<env>" atMandatory] [mkCmdArg "[tag]" atOptional]);
    repeat constructor.
Defined.

End ArgumentArity.

(** * Further properties of the slot parser and of registration *)

Section SlotParser.

Lemma last_char_cons c s : is_Some (last_char (String c s)).
Proof.
  revert c. induction s as [ | c' s IH ]; intros c; [by eexists | ].
  apply (IH c').
Qed.

(** The three results [cmdArgFromString] can give. *)
Lemma cmdArgFromString_cases p a :
  cmdArgFromString p = Some a →
  (p = "..." ∧ a = mkCmdArg p atEllipse)
  ∨ (p ≠ "..." ∧ a = mkCmdArg p atOptional)
  ∨ (p ≠ "..." ∧ a = mkCmdArg ("<" +:+ p +:+ ">") atMandatory).
Proof.
  unfold cmdArgFromString.
  destruct (String.eqb_spec p "...") as [-> | Hne].
  - intros [= <-]. by left.
  - repeat case_match; intros [= <-]; auto.
Qed.

(** The only pattern on which [cmdArgFromString] panics is the empty
    one; every other pattern gives a slot. *)
Theorem cmdArgFromString_panics_iff_empty p :
  cmdArgFromString p = None ↔ p = EmptyString.
Proof.
  split; [ | by intros -> ].
  destruct p as [ | c s ]; [done | ]. intros Hnone. exfalso.
  unfold cmdArgFromString in Hnone. rewrite last_char_get in Hnone.
  destruct (last_char_cons c s) as [l Hl]. rewrite Hl in Hnone.
  change (String.get 0 (String c s)) with (Some c) in Hnone.
  repeat case_match; done.
Qed.

Lemma append_closing_inj (p q : string) :
  p +:+ ">" = q +:+ ">" → p = q.
Proof.
  revert q. induction p as [ | c p IH ]; intros [ | d q ] H; simpl in H.
  - done.
  - injection H as _ H. by destruct q.
  - injection H as _ H. by destruct p.
  - injection H as -> H. f_equal. by apply IH.
Qed.

(** The pattern can be read back from the slot: two patterns that give
    the same slot are the same pattern. *)
Theorem cmdArgFromString_inj p q a :
  cmdArgFromString p = Some a → cmdArgFromString q = Some a → p = q.
Proof.
  intros Hp Hq.
  apply cmdArgFromString_cases in Hp as [[-> ->] | [[_ ->] | [_ ->]]];
    apply cmdArgFromString_cases in Hq as [[-> Hq] | [[_ Hq] | [_ Hq]]];
    try done.
  - by injection Hq.
  - injection Hq as Hq. by apply append_closing_inj in Hq.
Qed.

Lemma cmdArgFromString_inj_witness : "[tag]" = "[tag]".
Proof.
  apply (cmdArgFromString_inj "[tag]" "[tag]" (mkCmdArg "[tag]" atOptional));
    reflexivity.
Defined.

End SlotParser.

Section RegistrationProperties.

Context `{FP : FlagPackage}.

Lemma mapM_app_option {A B} (f : A → option B) (l k : list A) :
  mapM f (l ++ k) = x ← mapM f l; y ← mapM f k; Some (x ++ y).
Proof.
  induction l as [ | a l IH ]; simpl.
  - by destruct (mapM f k).
  - destruct (f a) as [b | ]; [ | done ]. simpl. rewrite IH.
    destruct (mapM f l) as [x | ]; [ | done ]. simpl.
    by destruct (mapM f k).
Qed.

(** Two calls of [Arguments] on a descriptor amount to one call with the
    patterns of both, in that order; a pattern that panics in either call
    panics in the single one. *)
Theorem Arguments_app (cont : cmdCont) (ps qs : list string) :
  Arguments cont (ps ++ qs) = (c ← Arguments cont ps; Arguments c qs).
Proof.
  unfold Arguments. rewrite mapM_app_option.
  destruct (mapM cmdArgFromString ps) as [x | ]; [ | done ]. simpl.
  destruct (mapM cmdArgFromString qs) as [y | ]; [ | done ]. simpl.
  by rewrite app_assoc.
Qed.

Lemma flagMap_no_required visited : size (flagMap [] visited) = 0.
Proof.
  destruct (size (flagMap [] visited)) eqn:Hs; [done | ].
  assert (Hpos : 0 < size (flagMap [] visited)) by lia.
  apply flagMap_missing in Hpos as (f & Hf & _). by apply elem_of_nil in Hf.
Qed.

(** A descriptor as [On] makes it passes the check after the flag parse
    whatever the positional arguments are; once [Arguments] has been
    called on it with no pattern at all, it passes only with no
    positional argument. *)
Theorem Arguments_none_and_empty (cont : cmdCont) :
  cmdCont_requiredFlags cont = [] →
  cmdCont_args cont = None →
  ∃ cont',
    Arguments cont [] = Some cont'
    ∧ ∀ name visited ts,
        check_command name cont visited ts = None
        ∧ (check_command name cont' visited ts = None ↔ ts = []).
Proof.
  intros Hreq Hargs. eexists. split; [reflexivity | ].
  intros name visited ts. unfold check_command. cbn [cmdCont_requiredFlags cmdCont_args].
  rewrite Hreq, Hargs. pose proof (flagMap_no_required visited) as Hsize.
  destruct (decide (0 < size (flagMap [] visited))) as [Hpos | _]; [lia | ].
  split; [done | ].
  cbn [default app]. rewrite Validate_nil. by destruct ts.
Qed.

(** The last registration of a name wins: it replaces the descriptor of
    an earlier one, with no required flag and no argument specification,
    and leaves every other name as it was. *)
Theorem On_overwrites (st : State) name d1 d2 (c1 c2 : Cmd) :
  cmds (On name d2 c2 (On name d1 c1 st)) = cmds (On name d2 c2 st)
  ∧ cmds (On name d2 c2 st) !! name = Some (mkCmdCont name d2 c2 [] None)
  ∧ ∀ other, other ≠ name →
      cmds (On name d2 c2 st) !! other = cmds st !! other.
Proof.
  split; [ | split ].
  - simpl. apply insert_insert_eq.
  - simpl. apply lookup_insert_eq.
  - intros other Hne. simpl. by rewrite lookup_insert_ne.
Qed.

End RegistrationProperties.

(** * Further properties of the resolution engine *)

Section ResolutionInvariants.

Context `{FP : FlagPackage}.

Implicit Types (st : State) (residue osArgs tokens : list string)
               (cont : cmdCont) (e : TryParseError).

(** The five ways in which [TryParse] returns, with what it returns. *)
Lemma TryParse_cases st osArgs st' r :
  TryParse st osArgs = Some (st', r) →
  ∃ cl,
    fs_Parse (CommandLine st) osArgs = Some cl
    ∧ ((size (cmds st) < 1 ∧ st' = set_CommandLine st cl ∧ r = None)
       ∨ ((1 ≤ size (cmds st))%nat
          ∧ consumePreargs st (fs_Args cl) = true
          ∧ length (fs_Args cl) < length (preargdefs st)
          ∧ st' = set_CommandLine st cl
          ∧ r = Some (mkTryParseError TryParseNoPreArg EmptyString
                        ("expected " +:+ pretty (length (preargdefs st))
                         +:+ " argument(s) before command")))
       ∨ ((1 ≤ size (cmds st))%nat
          ∧ length (fs_Args cl) < expectedArgCount st (fs_Args cl)
          ∧ st' = after_preargs (set_CommandLine st cl) (fs_Args cl)
          ∧ r = Some (mkTryParseError TryParseNoCommand EmptyString
                        "missing command"))
       ∨ ((1 ≤ size (cmds st))%nat
          ∧ (expectedArgCount st (fs_Args cl) ≤ length (fs_Args cl))%nat
          ∧ cmds st !! command_token st (fs_Args cl) = None
          ∧ st' = after_preargs (set_CommandLine st cl) (fs_Args cl)
          ∧ r = Some (mkTryParseError TryParseInvalidCommand EmptyString
                        ("invalid command: " +:+ command_token st (fs_Args cl))))
       ∨ ((1 ≤ size (cmds st))%nat
          ∧ (expectedArgCount st (fs_Args cl) ≤ length (fs_Args cl))%nat
          ∧ ∃ cont fs,
              cmds st !! command_token st (fs_Args cl) = Some cont
              ∧ command_flag_set st (command_token st (fs_Args cl)) cont
                  (drop (commandNameArgN st (fs_Args cl) + 1) (fs_Args cl))
                = Some fs
              ∧ st' = recorded (after_preargs (set_CommandLine st cl) (fs_Args cl))
                        fs cont
              ∧ r = check_command (command_token st (fs_Args cl)) cont
                      (fs_Visit fs) (fs_Args fs))).
Proof.
  intros Hret. apply TryParse_returns in Hret as (cl & Hcl & Hret).
  exists cl. split; [done | ].
  pose proof Hret as Hinv. apply TryParse_residue_inv in Hinv
    as [(Hempty & -> & ->) | [(Hsize & Hc & Hlt & _)
        | [(Hsize & Hlt & _ & e0 & Hr & He0)
        | [(Hsize & Hle & Hnone & -> & ->)
        | (Hsize & Hle & cont & fs & Hcont & Hfs & -> & ->)]]]].
  - by left.
  - right; left. rewrite TryParse_residue_no_prearg in Hret by done.
    by simplify_eq.
  - right; right; left.
    destruct (decide (consumePreargs (set_CommandLine st cl) (fs_Args cl) = true
                      ∧ length (fs_Args cl)
                        < length (preargdefs (set_CommandLine st cl))))
      as [[Hc Hp] | Hpre].
    + rewrite TryParse_residue_no_prearg in Hret by done.
      simplify_eq.
    + rewrite TryParse_residue_no_command in Hret by done. by simplify_eq.
  - right; right; right; left. done.
  - right; right; right; right. repeat split; try done.
    exists cont, fs. rewrite command_flag_set_after in Hfs. done.
Qed.

Lemma write_preargs_names (ds : list preArgDef) residue :
  preArgDef_name <$> write_preargs ds residue = preArgDef_name <$> ds
  ∧ preArgDef_desc <$> write_preargs ds residue = preArgDef_desc <$> ds.
Proof.
  split; apply list_eq; intros i;
    rewrite !list_lookup_fmap, write_preargs_lookup;
    destruct (ds !! i); reflexivity.
Qed.

Lemma after_preargs_configuration st residue :
  cmds (after_preargs st residue) = cmds st
  ∧ reserveHFlag (after_preargs st residue) = reserveHFlag st
  ∧ helpPreargOverride (after_preargs st residue) = helpPreargOverride st
  ∧ preArgDef_name <$> preargdefs (after_preargs st residue)
    = preArgDef_name <$> preargdefs st
  ∧ preArgDef_desc <$> preargdefs (after_preargs st residue)
    = preArgDef_desc <$> preargdefs st.
Proof.
  unfold after_preargs. destruct (consumePreargs st residue); [ | done ].
  simpl. destruct (write_preargs_names (preargdefs st) residue). done.
Qed.

Lemma recorded_configuration st fs cont :
  cmds (recorded st fs cont) = cmds st
  ∧ reserveHFlag (recorded st fs cont) = reserveHFlag st
  ∧ helpPreargOverride (recorded st fs cont) = helpPreargOverride st.
Proof. destruct st as [? ? ? ? ? ? [ | ] ?]; done. Qed.

(** [TryParse] only reads the configuration: a returning call leaves the
    registry, the two help settings, and the number, names and
    descriptions of the pre-argument declarations as they were. *)
Theorem TryParse_preserves_configuration st osArgs st' r :
  TryParse st osArgs = Some (st', r) →
  cmds st' = cmds st
  ∧ reserveHFlag st' = reserveHFlag st
  ∧ helpPreargOverride st' = helpPreargOverride st
  ∧ preArgDef_name <$> preargdefs st' = preArgDef_name <$> preargdefs st
  ∧ preArgDef_desc <$> preargdefs st' = preArgDef_desc <$> preargdefs st.
Proof.
  intros Hret. apply TryParse_cases in Hret
    as (cl & _ & [(_ & -> & _) | [(_ & _ & _ & -> & _) | [(_ & _ & -> & _)
        | [(_ & _ & _ & -> & _) | (_ & _ & cont & fs & _ & _ & -> & _)]]]]).
  - done.
  - done.
  - apply (after_preargs_configuration (set_CommandLine st cl)).
  - apply (after_preargs_configuration (set_CommandLine st cl)).
  - destruct (recorded_configuration
                (after_preargs (set_CommandLine st cl) (fs_Args cl)) fs cont)
      as (-> & -> & ->).
    rewrite recorded_preargdefs.
    apply (after_preargs_configuration (set_CommandLine st cl)).
Qed.

(** The required-flag check passes exactly when every required flag is
    among the flags that were set; how often a name is listed or visited
    does not matter. *)
Theorem required_flags_check (required visited : list string) :
  size (flagMap required visited) = 0 ↔ ∀ f, f ∈ required → f ∈ visited.
Proof.
  split.
  - intros Hsize f Hreq. destruct (decide (f ∈ visited)) as [ | Hvis ]; [done | ].
    assert (Hpos : 0 < size (flagMap required visited))
      by (apply flagMap_missing; eauto).
    lia.
  - intros Hall. destruct (size (flagMap required visited)) eqn:Hsize; [done | ].
    assert (Hpos : 0 < size (flagMap required visited)) by lia.
    apply flagMap_missing in Hpos as (f & Hreq & Hvis). by destruct Hvis; auto.
Qed.

Lemma check_command_None name cont visited ts :
  check_command name cont visited ts = None
  ↔ (∀ f, f ∈ cmdCont_requiredFlags cont → f ∈ visited)
    ∧ (∀ ca, cmdCont_args cont = Some ca → Validate ca ts = None).
Proof.
  unfold check_command.
  destruct (decide (0 < size (flagMap (cmdCont_requiredFlags cont) visited)))
    as [Hpos | Hzero].
  - split; [done | ]. intros [Hall _].
    apply flagMap_missing in Hpos as (f & Hreq & Hvis). destruct Hvis. auto.
  - assert (Hall : ∀ f, f ∈ cmdCont_requiredFlags cont → f ∈ visited).
    { intros f Hreq. destruct (decide (f ∈ visited)) as [ | Hvis ]; [done | ].
      destruct Hzero. apply flagMap_missing. eauto. }
    destruct (cmdCont_args cont) as [ca | ]; [ | by split ].
    destruct (Validate ca ts) as [msg | ] eqn:Hv.
    + split; [done | ]. intros [_ Hca]. specialize (Hca ca eq_refl). congruence.
    + split; [ | done ]. intros _. split; [done | ]. by intros ? [= <-].
Qed.

Lemma check_command_Some name cont visited ts e :
  check_command name cont visited ts = Some e →
  Command e = name
  ∧ (Reason e = TryParseArgError →
       ∃ ca msg, cmdCont_args cont = Some ca
                 ∧ Validate ca ts = Some msg
                 ∧ Message e = name +:+ ": " +:+ msg).
Proof.
  unfold check_command. repeat case_match; intros [= <-]; simpl; split;
    try done.
  intros _. eauto.
Qed.

(** What a nil result stands for when commands are registered: the
    command token names a registered descriptor, that descriptor and the
    tokens its flag parse left are recorded, every required flag was
    set, and the recorded tokens pass [Validate] if the descriptor has
    an argument specification. *)
Theorem TryParse_nil_sound st osArgs st' :
  TryParse st osArgs = Some (st', None) →
  (1 ≤ size (cmds st))%nat →
  ∃ cl cont fs,
    fs_Parse (CommandLine st) osArgs = Some cl
    ∧ cmds st !! command_token st (fs_Args cl) = Some cont
    ∧ command_flag_set st (command_token st (fs_Args cl)) cont
        (drop (commandNameArgN st (fs_Args cl) + 1) (fs_Args cl)) = Some fs
    ∧ matchingCmd st' = Some cont
    ∧ args st' = fs_Args fs
    ∧ (∀ f, f ∈ cmdCont_requiredFlags cont → f ∈ fs_Visit fs)
    ∧ (∀ ca, cmdCont_args cont = Some ca → Validate ca (args st') = None).
Proof.
  intros Hret Hsize. apply TryParse_cases in Hret
    as (cl & Hcl & [(Hempty & _) | [(_ & _ & _ & _ & ?) | [(_ & _ & _ & ?)
        | [(_ & _ & _ & _ & ?) | (_ & _ & cont & fs & Hcont & Hfs & -> & Hr)]]]]);
    try done; [lia | ].
  symmetry in Hr. apply check_command_None in Hr as [Hreq Hval].
  exists cl, cont, fs. by repeat split.
Qed.

(** The usage shown for an error that [TryParse] returned is the program
    usage or the usage of the matched command; it is never the report of
    an unknown command name. *)
Theorem TryParseError_Usage_known st osArgs st' e :
  TryParse st osArgs = Some (st', Some e) →
  TryParseError_Usage st' e = ProgramUsage
  ∨ ∃ cont, matchingCmd st' = Some cont
            ∧ TryParseError_Usage st' e = CommandUsage cont.
Proof.
  intros Hret.
  unfold TryParseError_Usage, subcommandUsageByName.
  apply TryParse_cases in Hret
    as (cl & Hcl & [(_ & _ & ?) | [(_ & _ & _ & _ & Hr) | [(_ & _ & _ & Hr)
        | [(_ & _ & _ & _ & Hr) | (_ & _ & cont & fs & Hcont & Hfs & -> & Hr)]]]]);
    try done; try (injection Hr as ->; by left).
  symmetry in Hr. apply check_command_Some in Hr as [-> _].
  case_decide; [ | by left ]. right. exists cont.
  destruct (recorded_configuration
              (after_preargs (set_CommandLine st cl) (fs_Args cl)) fs cont)
    as (-> & _).
  destruct (after_preargs_configuration (set_CommandLine st cl) (fs_Args cl))
    as (-> & _).
  change (cmds (set_CommandLine st cl)) with (cmds st). by rewrite Hcont.
Qed.

(** The pre-arguments are skipped exactly when the help override is on
    and the first token left by the global parse is [help]; the tokens
    after it play no part. *)
Theorem consumePreargs_false_iff st residue :
  consumePreargs st residue = false
  ↔ helpPreargOverride st = true ∧ ∃ rest, residue = "help" :: rest.
Proof.
  unfold consumePreargs.
  destruct (helpPreargOverride st); simpl.
  - destruct residue as [ | t rest ]; simpl.
    + split; [done | ]. by intros [_ [rest ?]].
    + unfold Arg. simpl. rewrite orb_false_r.
      destruct (decide (t = "help")) as [-> | Hne].
      * split; [ | done ]. intros _. split; [done | by exists rest].
      * rewrite (bool_decide_false (t = "help")) by done. simpl.
        split; [done | ]. intros [_ [rest' [= -> _]]]. done.
  - split; [done | ]. by intros [? _].
Qed.

Lemma consumePreargs_help_rest st rest :
  helpPreargOverride st = true → consumePreargs st ("help" :: rest) = false.
Proof.
  unfold consumePreargs. intros ->.
  rewrite !bool_decide_true; [done | done | simpl; lia].
Qed.

(** With the help override on and [help] as the first token, the
    declared pre-arguments are not asked for: [help] is looked up as the
    command, and every token after it goes to that command's flag
    parse. *)
Theorem TryParse_help_first st osArgs cl rest cont fs :
  helpPreargOverride st = true →
  fs_Parse (CommandLine st) osArgs = Some cl →
  fs_Args cl = "help" :: rest →
  cmds st !! "help" = Some cont →
  command_flag_set st "help" cont rest = Some fs →
  TryParse st osArgs =
    Some (recorded (set_CommandLine st cl) fs cont,
          check_command "help" cont (fs_Visit fs) (fs_Args fs)).
Proof.
  intros Hover Hcl Hres Hcont Hfs.
  pose proof (consumePreargs_help_rest st rest Hover) as Hskip.
  destruct (expectedArgCount_skip _ _ Hskip) as [Hexp Hn].
  assert (Htoken : command_token st ("help" :: rest) = "help").
  { unfold command_token. by rewrite Hn. }
  rewrite (TryParse_command st osArgs cl ("help" :: rest) cont fs); try done.
  - rewrite Htoken. by rewrite after_preargs_skip.
  - rewrite Hexp. simpl. lia.
  - by rewrite Htoken.
  - by rewrite Htoken, Hn.
Qed.

(** With no pre-argument declared and commands registered, no returned
    error is the no-pre-argument one, and the no-command error is
    returned exactly when the global parse leaves no token. *)
Theorem TryParse_no_preargs st osArgs cl :
  preargdefs st = [] →
  (1 ≤ size (cmds st))%nat →
  fs_Parse (CommandLine st) osArgs = Some cl →
  (fs_Args cl = [] →
     ∃ st', TryParse st osArgs =
              Some (st', Some (mkTryParseError TryParseNoCommand EmptyString
                                 "missing command")))
  ∧ (∀ st' e, TryParse st osArgs = Some (st', Some e) →
       Reason e ≠ TryParseNoPreArg
       ∧ (Reason e = TryParseNoCommand → fs_Args cl = [])).
Proof.
  intros Hnone Hsize Hcl.
  assert (Hexp : expectedArgCount st (fs_Args cl) = 1).
  { unfold expectedArgCount, commandNameArgN. rewrite Hnone.
    by destruct (consumePreargs st (fs_Args cl)). }
  split.
  - intros Hres. eexists.
    rewrite (TryParse_global _ _ _ Hcl).
    apply TryParse_residue_no_command; try done.
    + change (expectedArgCount (set_CommandLine st cl) (fs_Args cl))
        with (expectedArgCount st (fs_Args cl)).
      rewrite Hexp, Hres. simpl. lia.
    + change (preargdefs (set_CommandLine st cl)) with (preargdefs st).
      rewrite Hnone. simpl. lia.
  - intros st' e Hret. apply TryParse_cases in Hret
      as (cl' & Hcl' & [(_ & _ & ?) | [(_ & _ & Hlt & _) | [(_ & Hlt & _ & Hr)
          | [(_ & _ & _ & _ & Hr) | (_ & _ & cont & fs & _ & _ & _ & Hr)]]]]);
      try done; rewrite Hcl in Hcl'; injection Hcl' as <-.
    + rewrite Hnone in Hlt. simpl in Hlt. lia.
    + injection Hr as ->. split; [done | ]. intros _.
      rewrite Hexp in Hlt. destruct (fs_Args cl); [done | simpl in Hlt; lia].
    + injection Hr as ->. by split.
    + symmetry in Hr. apply check_command_reason in Hr as [[-> _] | [-> _]];
        by split.
Qed.

(** A matched command without an argument specification gets no arity
    check: once the required flags are set the call returns nil and the
    tokens left by the flag parse, however many, are recorded as the
    positional arguments. *)
Theorem TryParse_no_argument_spec st osArgs cl residue cont fs :
  fs_Parse (CommandLine st) osArgs = Some cl →
  fs_Args cl = residue →
  (expectedArgCount st residue ≤ length residue)%nat →
  cmds st !! command_token st residue = Some cont →
  command_flag_set st (command_token st residue) cont
    (drop (commandNameArgN st residue + 1) residue) = Some fs →
  (∀ f, f ∈ cmdCont_requiredFlags cont → f ∈ fs_Visit fs) →
  cmdCont_args cont = None →
  TryParse st osArgs =
    Some (recorded (after_preargs (set_CommandLine st cl) residue) fs cont, None)
  ∧ args (recorded (after_preargs (set_CommandLine st cl) residue) fs cont)
    = fs_Args fs.
Proof.
  intros Hcl Hres Hle Hcont Hfs Hreq Hargs. split; [ | done ].
  rewrite (TryParse_command _ _ _ _ _ _ Hcl Hres Hle Hcont Hfs).
  f_equal. f_equal. apply check_command_None. split; [done | ].
  intros ca Hca. congruence.
Qed.

(** ** The help flag and the dispatcher *)

Lemma recorded_flagHelp st fs cont :
  flagHelp (recorded st fs cont)
  = if reserveHFlag st then Some (fs_BoolValue fs "h") else flagHelp st.
Proof. destruct st as [? ? ? ? ? ? [ | ] ?]; done. Qed.

Lemma after_preargs_flagHelp st residue :
  flagHelp (after_preargs st residue) = flagHelp st.
Proof. unfold after_preargs. by destruct (consumePreargs st residue). Qed.

(** Once the [h] flag is no longer reserved, [TryParse] never assigns
    [flagHelp]: a returning call leaves it as it was, also when a
    command is matched. *)
Theorem TryParse_unreserved_flagHelp st osArgs st' r :
  reserveHFlag st = false →
  TryParse st osArgs = Some (st', r) →
  flagHelp st' = flagHelp st.
Proof.
  intros Hfree Hret. apply TryParse_cases in Hret
    as (cl & _ & [(_ & -> & _) | [(_ & _ & _ & -> & _) | [(_ & _ & -> & _)
        | [(_ & _ & _ & -> & _) | (_ & _ & cont & fs & _ & _ & -> & _)]]]]);
    rewrite ?recorded_flagHelp, ?after_preargs_reserveHFlag,
            ?after_preargs_flagHelp; try done.
  change (reserveHFlag (set_CommandLine st cl)) with (reserveHFlag st).
  by rewrite Hfree.
Qed.

(** After a call that returned nil with the [h] flag reserved and
    commands registered, [Run] shows the usage of the matched command
    when its flag parse set [h], and otherwise calls the handler with
    the tokens that parse left. *)
Theorem Run_after_TryParse st osArgs st' :
  TryParse st osArgs = Some (st', None) →
  (1 ≤ size (cmds st))%nat →
  reserveHFlag st = true →
  ∃ cl cont fs,
    fs_Parse (CommandLine st) osArgs = Some cl
    ∧ cmds st !! command_token st (fs_Args cl) = Some cont
    ∧ command_flag_set st (command_token st (fs_Args cl)) cont
        (drop (commandNameArgN st (fs_Args cl) + 1) (fs_Args cl)) = Some fs
    ∧ Run st' = Some (if fs_BoolValue fs "h" then CommandUsage cont
                      else RunHandler cont (fs_Args fs)).
Proof.
  intros Hret Hsize Hres. apply TryParse_cases in Hret
    as (cl & Hcl & [(Hempty & _) | [(_ & _ & _ & _ & ?) | [(_ & _ & _ & ?)
        | [(_ & _ & _ & _ & ?) | (_ & _ & cont & fs & Hcont & Hfs & -> & Hr)]]]]);
    try done; [lia | ].
  exists cl, cont, fs. repeat split; try done.
  unfold Run. rewrite recorded_matchingCmd, recorded_flagHelp, recorded_args.
  rewrite after_preargs_reserveHFlag.
  change (reserveHFlag (set_CommandLine st cl)) with (reserveHFlag st).
  rewrite Hres. by destruct (fs_BoolValue fs "h").
Qed.

(** [Run] does not look at what [TryParse] returned.  After a call that
    returned the argument error the matched command is recorded with
    the tokens that failed [Validate], and [Run] calls its handler with
    them, or shows its usage. *)
Theorem Run_after_argument_error st osArgs st' e :
  TryParse st osArgs = Some (st', Some e) →
  Reason e = TryParseArgError →
  ∃ cont ca msg,
    matchingCmd st' = Some cont
    ∧ cmdCont_args cont = Some ca
    ∧ Validate ca (args st') = Some msg
    ∧ Message e = Command e +:+ ": " +:+ msg
    ∧ (Run st' = Some (RunHandler cont (args st'))
       ∨ Run st' = Some (CommandUsage cont)).
Proof.
  intros Hret Hreason. apply TryParse_cases in Hret
    as (cl & Hcl & [(_ & _ & ?) | [(_ & _ & _ & _ & Hr) | [(_ & _ & _ & Hr)
        | [(_ & _ & _ & _ & Hr) | (_ & _ & cont & fs & Hcont & Hfs & -> & Hr)]]]]);
    try done; try (injection Hr as ->; done).
  symmetry in Hr. apply check_command_Some in Hr as [Hcmd Hmsg].
  destruct (Hmsg Hreason) as (ca & msg & Hca & Hval & Hm).
  exists cont, ca, msg. rewrite Hcmd. repeat split; try done.
  unfold Run. rewrite recorded_matchingCmd.
  destruct (flagHelp _) as [[ | ] | ]; auto.
Qed.

(** With no command registered a returning [TryParse] changes nothing
    that [Run] reads: [Run] does after it what it would have done
    before. *)
Theorem Run_no_commands st osArgs st' r :
  size (cmds st) < 1 →
  TryParse st osArgs = Some (st', r) →
  Run st' = Run st.
Proof.
  intros Hempty Hret. apply TryParse_cases in Hret
    as (cl & _ & [(_ & -> & _) | [(? & _) | [(? & _) | [(? & _) | (? & _)]]]]);
    (done || lia).
Qed.

(** [ParseAndRun] calls a handler only for a command that passed every
    check when commands are registered: the command token names its
    descriptor, the arguments are the tokens its flag parse left, every
    required flag was set, the arguments pass [Validate] if there is an
    argument specification, and the reserved [h] flag was not set. *)
Theorem ParseAndRun_handler st osArgs cont arguments :
  ParseAndRun st osArgs = Some (inl (Some (RunHandler cont arguments))) →
  (1 ≤ size (cmds st))%nat →
  ∃ cl fs,
    fs_Parse (CommandLine st) osArgs = Some cl
    ∧ cmds st !! command_token st (fs_Args cl) = Some cont
    ∧ command_flag_set st (command_token st (fs_Args cl)) cont
        (drop (commandNameArgN st (fs_Args cl) + 1) (fs_Args cl)) = Some fs
    ∧ arguments = fs_Args fs
    ∧ (∀ f, f ∈ cmdCont_requiredFlags cont → f ∈ fs_Visit fs)
    ∧ (∀ ca, cmdCont_args cont = Some ca → Validate ca arguments = None)
    ∧ (reserveHFlag st = true → fs_BoolValue fs "h" = false).
Proof.
  unfold ParseAndRun, Parse. intros Hrun Hsize.
  destruct (TryParse st osArgs) as [[st' [e | ]] | ] eqn:Hret; try done.
  simpl in Hrun. injection Hrun as Hrun.
  apply TryParse_cases in Hret
    as (cl & Hcl & [(Hempty & _) | [(_ & _ & _ & _ & ?) | [(_ & _ & _ & ?)
        | [(_ & _ & _ & _ & ?) | (_ & _ & c & fs & Hcont & Hfs & -> & Hr)]]]]);
    try done; [lia | ].
  symmetry in Hr. apply check_command_None in Hr as [Hreq Hval].
  unfold Run in Hrun.
  rewrite recorded_matchingCmd, recorded_flagHelp, recorded_args in Hrun.
  rewrite after_preargs_reserveHFlag in Hrun.
  change (reserveHFlag (set_CommandLine st cl)) with (reserveHFlag st) in Hrun.
  assert (Hc : c = cont ∧ arguments = fs_Args fs
               ∧ (reserveHFlag st = true → fs_BoolValue fs "h" = false)).
  { destruct (reserveHFlag st).
    - destruct (fs_BoolValue fs "h"); [done | ]. by simplify_eq.
    - destruct (flagHelp _) as [[ | ] | ]; by simplify_eq. }
  destruct Hc as (-> & -> & Hh).
  exists cl, fs. by repeat split.
Qed.

End ResolutionInvariants.

(** * The further properties on concrete command lines *)

Section MoreRuns.

Import Examples.

Lemma Arguments_none_and_empty_witness :
  ∃ cont',
    Arguments status [] = Some cont'
    ∧ ∀ name visited ts,
        check_command name status visited ts = None
        ∧ (check_command name cont' visited ts = None ↔ ts = []).
Proof. apply (Arguments_none_and_empty status); reflexivity. Defined.

Lemma TryParse_preserves_configuration_witness :
  preArgDef_name
    <$> preargdefs (resolved status_program ["acme"; "myrepo"; "status"]
                             "status" status [])
  = ["org"; "repo"].
Proof.
  destruct (TryParse_preserves_configuration status_program
              ["acme"; "myrepo"; "status"]
              (resolved status_program ["acme"; "myrepo"; "status"]
                        "status" status [])
              None eq_refl) as (_ & _ & _ & Hnames & _).
  exact Hnames.
Defined.

Lemma TryParse_nil_sound_witness :
  ∃ cl cont fs,
    fs_Parse (CommandLine deploy_program) ["deploy"; "-force"; "prod"] = Some cl
    ∧ cmds deploy_program !! command_token deploy_program (fs_Args cl) = Some cont
    ∧ command_flag_set deploy_program
        (command_token deploy_program (fs_Args cl)) cont
        (drop (commandNameArgN deploy_program (fs_Args cl) + 1) (fs_Args cl))
      = Some fs
    ∧ matchingCmd (resolved deploy_program ["deploy"; "-force"; "prod"]
                            "deploy" deploy ["-force"; "prod"]) = Some cont
    ∧ args (resolved deploy_program ["deploy"; "-force"; "prod"]
                     "deploy" deploy ["-force"; "prod"]) = fs_Args fs
    ∧ (∀ f, f ∈ cmdCont_requiredFlags cont → f ∈ fs_Visit fs)
    ∧ (∀ ca, cmdCont_args cont = Some ca →
         Validate ca (args (resolved deploy_program ["deploy"; "-force"; "prod"]
                                     "deploy" deploy ["-force"; "prod"])) = None).
Proof.
  apply (TryParse_nil_sound deploy_program ["deploy"; "-force"; "prod"]).
  - reflexivity.
  - vm_compute. lia.
Defined.

Lemma TryParseError_Usage_known_witness :
  TryParseError_Usage
    (resolved deploy_program ["deploy"; "prod"] "deploy" deploy ["prod"])
    (mkTryParseError TryParseInvalidCommand "deploy"
       "deploy: missing required flags") = ProgramUsage
  ∨ ∃ cont,
      matchingCmd (resolved deploy_program ["deploy"; "prod"]
                            "deploy" deploy ["prod"]) = Some cont
      ∧ TryParseError_Usage
          (resolved deploy_program ["deploy"; "prod"] "deploy" deploy ["prod"])
          (mkTryParseError TryParseInvalidCommand "deploy"
             "deploy: missing required flags") = CommandUsage cont.
Proof.
  apply (TryParseError_Usage_known deploy_program ["deploy"; "prod"]).
  reflexivity.
Defined.

(** [help command1] with the override on and a pre-argument declared. *)
Lemma TryParse_help_first_witness :
  TryParse override_help_program ["help"; "command1"] =
    Some (recorded
            (set_CommandLine override_help_program
               (global_parsed override_help_program ["help"; "command1"]))
            (command_parsed override_help_program "help" help ["command1"])
            help,
          check_command "help" help
            (fs_Visit (command_parsed override_help_program "help" help
                         ["command1"]))
            (fs_Args (command_parsed override_help_program "help" help
                        ["command1"]))).
Proof.
  apply (TryParse_help_first override_help_program ["help"; "command1"]
           (global_parsed override_help_program ["help"; "command1"])
           ["command1"] help
           (command_parsed override_help_program "help" help ["command1"]));
    reflexivity.
Defined.

Lemma TryParse_no_preargs_witness :
  ∃ st', TryParse deploy_program [] =
           Some (st', Some (mkTryParseError TryParseNoCommand EmptyString
                              "missing command")).
Proof.
  assert (Hsize : (1 ≤ size (cmds deploy_program))%nat) by (vm_compute; lia).
  destruct (TryParse_no_preargs deploy_program []
              (global_parsed deploy_program []) eq_refl Hsize eq_refl)
    as [Hnone _].
  apply Hnone. reflexivity.
Defined.

(** [status] has no argument specification: [x y] are accepted. *)
Lemma TryParse_no_argument_spec_witness :
  TryParse status_program ["acme"; "myrepo"; "status"; "x"; "y"] =
    Some (resolved status_program ["acme"; "myrepo"; "status"; "x"; "y"]
                   "status" status ["x"; "y"],
          None)
  ∧ args (resolved status_program ["acme"; "myrepo"; "status"; "x"; "y"]
                   "status" status ["x"; "y"])
    = fs_Args (command_parsed status_program "status" status ["x"; "y"]).
Proof.
  apply (TryParse_no_argument_spec status_program
           ["acme"; "myrepo"; "status"; "x"; "y"]
           (global_parsed status_program ["acme"; "myrepo"; "status"; "x"; "y"])
           ["acme"; "myrepo"; "status"; "x"; "y"] status
           (command_parsed status_program "status" status ["x"; "y"])).
  - reflexivity.
  - reflexivity.
  - vm_compute. lia.
  - reflexivity.
  - reflexivity.
  - intros f Hf. by apply elem_of_nil in Hf.
  - reflexivity.
Defined.

Lemma TryParse_unreserved_flagHelp_witness :
  flagHelp (resolved override_help_program ["help"] "help" help [])
  = flagHelp override_help_program.
Proof.
  apply (TryParse_unreserved_flagHelp override_help_program ["help"] _ None);
    reflexivity.
Defined.

Lemma Run_after_TryParse_witness :
  ∃ cl cont fs,
    fs_Parse (CommandLine deploy_program) ["deploy"; "-force"; "-h"; "prod"]
    = Some cl
    ∧ cmds deploy_program !! command_token deploy_program (fs_Args cl) = Some cont
    ∧ command_flag_set deploy_program
        (command_token deploy_program (fs_Args cl)) cont
        (drop (commandNameArgN deploy_program (fs_Args cl) + 1) (fs_Args cl))
      = Some fs
    ∧ Run (resolved deploy_program ["deploy"; "-force"; "-h"; "prod"]
                    "deploy" deploy ["-force"; "-h"; "prod"])
      = Some (if fs_BoolValue fs "h" then CommandUsage cont
              else RunHandler cont (fs_Args fs)).
Proof.
  apply (Run_after_TryParse deploy_program ["deploy"; "-force"; "-h"; "prod"]).
  - reflexivity.
  - vm_compute. lia.
  - reflexivity.
Defined.

Lemma Run_after_argument_error_witness :
  ∃ cont ca msg,
    matchingCmd (resolved deploy_program ["deploy"; "-force"; "a"; "b"]
                          "deploy" deploy ["-force"; "a"; "b"]) = Some cont
    ∧ cmdCont_args cont = Some ca
    ∧ Validate ca (args (resolved deploy_program ["deploy"; "-force"; "a"; "b"]
                                  "deploy" deploy ["-force"; "a"; "b"]))
      = Some msg
    ∧ "deploy: too many arguments" = "deploy" +:+ ": " +:+ msg
    ∧ (Run (resolved deploy_program ["deploy"; "-force"; "a"; "b"]
                     "deploy" deploy ["-force"; "a"; "b"])
       = Some (RunHandler cont
                 (args (resolved deploy_program ["deploy"; "-force"; "a"; "b"]
                                 "deploy" deploy ["-force"; "a"; "b"])))
       ∨ Run (resolved deploy_program ["deploy"; "-force"; "a"; "b"]
                       "deploy" deploy ["-force"; "a"; "b"])
         = Some (CommandUsage cont)).
Proof.
  apply (Run_after_argument_error deploy_program
           ["deploy"; "-force"; "a"; "b"] _
           (mkTryParseError TryParseArgError "deploy"
              "deploy: too many arguments"));
    reflexivity.
Defined.

Lemma Run_no_commands_witness :
  Run (set_CommandLine start (global_parsed start ["unknown-cmd"])) = Run start.
Proof.
  apply (Run_no_commands start ["unknown-cmd"] _ None).
  - vm_compute. lia.
  - reflexivity.
Defined.

Lemma ParseAndRun_handler_witness :
  ∃ cl fs,
    fs_Parse (CommandLine deploy_program) ["deploy"; "-force"; "prod"] = Some cl
    ∧ cmds deploy_program !! command_token deploy_program (fs_Args cl)
      = Some deploy
    ∧ command_flag_set deploy_program
        (command_token deploy_program (fs_Args cl)) deploy
        (drop (commandNameArgN deploy_program (fs_Args cl) + 1) (fs_Args cl))
      = Some fs
    ∧ ["prod"] = fs_Args fs
    ∧ (∀ f, f ∈ cmdCont_requiredFlags deploy → f ∈ fs_Visit fs)
    ∧ (∀ ca, cmdCont_args deploy = Some ca → Validate ca ["prod"] = None)
    ∧ (reserveHFlag deploy_program = true → fs_BoolValue fs "h" = false).
Proof.
  apply (ParseAndRun_handler deploy_program ["deploy"; "-force"; "prod"]).
  - reflexivity.
  - vm_compute. lia.
Defined.

End MoreRuns.

(** * The built-in help command *)

Section HelpCommand.

Context `{FP : FlagPackage}.

(** The handler of the built-in help command ends the process with the
    report of an unknown command in two cases only: its single argument
    is not a registered name, or it has more than one argument and no
    command named [help] is registered any more.  With more than one
    argument it otherwise shows the usage of [help] itself, whatever the
    arguments are; with one argument that is a registered name it shows
    the usage of that command, and with none the program usage. *)
Theorem cmdUsageCmd_Run_unrecognised (st : State) (arguments : list string) name :
  (cmdUsageCmd_Run st arguments = Unrecognised name
   ↔ (arguments = [name] ∧ cmds st !! name = None)
     ∨ (2 ≤ length arguments ∧ name = "help" ∧ cmds st !! "help" = None)%nat)
  ∧ ((2 ≤ length arguments)%nat →
     ∀ cont, cmds st !! "help" = Some cont →
       cmdUsageCmd_Run st arguments = CommandUsage cont)
  ∧ (∀ a cont, arguments = [a] → cmds st !! a = Some cont →
       cmdUsageCmd_Run st arguments = CommandUsage cont)
  ∧ (arguments = [] → cmdUsageCmd_Run st arguments = ProgramUsage).
Proof.
  split; [ | split; [ | split ] ].
  2:{ intros Hlen cont Hhelp. unfold cmdUsageCmd_Run, subcommandUsageByName.
      destruct arguments as [ | a [ | b rest ] ]; simpl in Hlen; try lia.
      by rewrite Hhelp. }
  2:{ intros a cont -> Ha. unfold cmdUsageCmd_Run, subcommandUsageByName.
      by rewrite Ha. }
  2:{ by intros ->. }
  unfold cmdUsageCmd_Run, subcommandUsageByName.
  destruct arguments as [ | a [ | b rest ] ].
  - split; [done | ]. intros [[? _] | [Hlen _]]; [done | simpl in Hlen; lia].
  - destruct (cmds st !! a) as [cont | ] eqn:Ha.
    + split; [done | ].
      intros [[[= ->] Hnone] | [Hlen _]]; [congruence | simpl in Hlen; lia].
    + split.
      * intros [= ->]. by left.
      * intros [[[= ->] _] | [Hlen _]]; [done | simpl in Hlen; lia].
  - destruct (cmds st !! "help") as [cont | ] eqn:Hhelp.
    + split; [done | ]. intros [[? _] | (_ & _ & ?)]; done.
    + split.
      * intros [= <-]. right. repeat split; (done || simpl; lia).
      * intros [[? _] | (_ & -> & _)]; done.
Qed.

End HelpCommand.
